(** * Hand-over-hand locking on a singly-linked list (hoh.cpp)

    A shallow embedding of the list of strings with one reader-writer
    lock per node, of its single-threaded construction ([list_add],
    [populate_list]) and of [lookup], which walks to the n-th node with
    shared locks taken hand over hand and hands the node back with its
    lock held exclusively.

    The embedding is sequential: it follows one call through the program
    state.  A lock operation that cannot be granted in the current state
    is an outcome of its own ([Block]), as are undefined behaviour
    ([Fault]) and an exhausted loop budget ([OutOfFuel]).  Every run also
    yields the list of lock transitions and of reads of [next] fields it
    performed, in program order, so that statements about what is held
    "at every point of a call" are statements about the prefixes of that
    list.  The diagnostic output on [std::cout] is not modelled. *)

From Stdlib Require Import NArith String Ascii Lia.
From stdpp Require Import base tactics option list numbers strings gmap.

Local Open Scope string_scope.
Local Open Scope list_scope.
Local Open Scope nat_scope.

(** ** Machine integers: [unsigned int] *)

Definition UINT_MOD : N := (2 ^ 32)%N.

(** [x++] and [--x] on an [unsigned int], wrap-around written out. *)
Definition uint_incr (x : N) : N := ((x + 1) mod UINT_MOD)%N.
Definition uint_decr (x : N) : N := ((x + (UINT_MOD - 1)) mod UINT_MOD)%N.

(** ** Data *)

(** [std::shared_mutex]: any number of shared holders or one exclusive
    holder. *)
Record shared_mutex := { readers : nat; writer : bool }.

Record verbose_mutex := { m : shared_mutex; serial_num : N }.

(** A [node *]; [nullptr] is [None] of [option ptr].  A pointer to a
    node's [mutex] member is identified with the pointer to the node. *)
Abbreviation ptr := nat.

Record node := { mutex : verbose_mutex; element : string; next : option ptr }.

(** The program state: the free store, the static [node *list] (named
    [list_] here) and the static counter [verbose_mutex::number]. *)
Record state := { heap : list node; list_ : option ptr; number : N }.

Definition initial_state : state :=
  {| heap := []; list_ := None; number := 0%N |}.

Definition set_heap (f : list node → list node) (s : state) : state :=
  {| heap := f (heap s); list_ := list_ s; number := number s |}.

(** [std::runtime_error].  The three errors of [lookup] are told apart
    by their message. *)
Inductive exn := runtime_error (what : string).

Definition EmptyChain : exn := runtime_error "lookup: list is empty".
Definition InvalidIndex : exn := runtime_error "lookup: invalid argument".
Definition IndexOutOfRange : exn := runtime_error "lookup: list too short".

Inductive mode := Shared | Exclusive.

(** What a run records: a lock granted or released, in which mode and on
    the mutex of which node; a read of the [next] field of a node; the
    raising of an exception. *)
Inductive event :=
| EvAcquire (md : mode) (p : ptr)
| EvRelease (md : mode) (p : ptr)
| EvReadNext (p : ptr)
| EvThrow.

Global Instance mode_eq_dec : EqDecision mode.
Proof. solve_decision. Defined.

Global Instance event_eq_dec : EqDecision event.
Proof. solve_decision. Defined.

(** ** The monad of the embedding *)

(** How a computation ends: with a value; with an exception on its way
    to the caller; waiting for the mutex of the node at [p]; in undefined
    behaviour (a null or dangling pointer dereferenced, a mutex released
    that is not held); with its loop budget exhausted. *)
Inductive res (A : Type) :=
| Ret (a : A)
| Throw (e : exn)
| Block (p : ptr)
| Fault
| OutOfFuel.
Arguments Ret {A} a.
Arguments Throw {A} e.
Arguments Block {A} p.
Arguments Fault {A}.
Arguments OutOfFuel {A}.

Definition M (A : Type) : Type := state → res A * state * list event.

Definition ret {A} (a : A) : M A := λ s, (Ret a, s, []).

Definition bind {A B} (c : M A) (k : A → M B) : M B := λ s,
  match c s with
  | (Ret a, s1, t1) => let '(r, s2, t2) := k a s1 in (r, s2, t1 ++ t2)
  | (Throw e, s1, t1) => (Throw e, s1, t1)
  | (Block p, s1, t1) => (Block p, s1, t1)
  | (Fault, s1, t1) => (Fault, s1, t1)
  | (OutOfFuel, s1, t1) => (OutOfFuel, s1, t1)
  end.

Declare Scope hoh_scope.
Delimit Scope hoh_scope with hoh.
Notation "x ← c ; k" := (bind c (λ x, k))
  (at level 20, c at level 100, k at level 200, only parsing) : hoh_scope.
Notation "' x ← c ; k" := (bind c (λ x, k))
  (at level 20, x pattern, c at level 100, k at level 200, only parsing) : hoh_scope.
Notation "c ;; k" := (bind c (λ _, k))
  (at level 100, k at level 200, only parsing, right associativity) : hoh_scope.
Local Open Scope hoh_scope.

Definition outcome {A} (x : res A * state * list event) : res A := x.1.1.
Definition final {A} (x : res A * state * list event) : state := x.1.2.
Definition trace {A} (x : res A * state * list event) : list event := x.2.

Definition fault {A} : M A := λ s, (Fault, s, []).
Definition out_of_fuel {A} : M A := λ s, (OutOfFuel, s, []).

(** [throw e unwinding]: the exception is raised, then the destructors of
    the automatic objects in scope run ([unwinding], written at each
    throw site in reverse order of construction), then [e] reaches the
    caller.  This is the behaviour seen by a caller that catches [e]; if
    no handler exists at all the program terminates, and whether the
    destructors run first is left to the implementation. *)
Definition throw {A} (e : exn) (unwinding : M unit) : M A := λ s,
  match unwinding s with
  | (Ret _, s1, t1) => (Throw e, s1, EvThrow :: t1)
  | (Throw e', s1, t1) => (Throw e', s1, EvThrow :: t1)
  | (Block p, s1, t1) => (Block p, s1, EvThrow :: t1)
  | (Fault, s1, t1) => (Fault, s1, EvThrow :: t1)
  | (OutOfFuel, s1, t1) => (OutOfFuel, s1, EvThrow :: t1)
  end.

(** ** std::shared_mutex *)

Definition sm_lock (x : shared_mutex) : option shared_mutex :=
  if writer x || negb (Nat.eqb (readers x) 0) then None
  else Some {| readers := readers x; writer := true |}.

Definition sm_unlock (x : shared_mutex) : option shared_mutex :=
  if writer x then Some {| readers := readers x; writer := false |} else None.

Definition sm_lock_shared (x : shared_mutex) : option shared_mutex :=
  if writer x then None
  else Some {| readers := S (readers x); writer := writer x |}.

Definition sm_unlock_shared (x : shared_mutex) : option shared_mutex :=
  match readers x with
  | O => None
  | S r => Some {| readers := r; writer := writer x |}
  end.

(** ** verbose_mutex *)

Definition with_m (x : shared_mutex) (nd : node) : node :=
  {| mutex := {| m := x; serial_num := serial_num (mutex nd) |};
     element := element nd;
     next := next nd |}.

(** verbose_mutex::verbose_mutex(): [serial_num = number++]. *)
Definition verbose_mutex_ctor : M verbose_mutex := λ s,
  (Ret {| m := {| readers := 0; writer := false |}; serial_num := number s |},
   {| heap := heap s; list_ := list_ s; number := uint_incr (number s) |},
   []).

(** An acquisition that the mutex cannot grant now keeps the caller
    waiting: [Block]. *)
Definition acquire (op : shared_mutex → option shared_mutex) (md : mode)
    (p : ptr) : M unit := λ s,
  match heap s !! p with
  | None => (Fault, s, [])
  | Some nd =>
      match op (m (mutex nd)) with
      | None => (Block p, s, [])
      | Some x => (Ret tt, set_heap (λ h, <[p := with_m x nd]> h) s, [EvAcquire md p])
      end
  end.

(** Releasing a mutex that is not held in that mode is undefined. *)
Definition release (op : shared_mutex → option shared_mutex) (md : mode)
    (p : ptr) : M unit := λ s,
  match heap s !! p with
  | None => (Fault, s, [])
  | Some nd =>
      match op (m (mutex nd)) with
      | None => (Fault, s, [])
      | Some x => (Ret tt, set_heap (λ h, <[p := with_m x nd]> h) s, [EvRelease md p])
      end
  end.

Definition lock (p : ptr) : M unit := acquire sm_lock Exclusive p.
Definition unlock (p : ptr) : M unit := release sm_unlock Exclusive p.
Definition lock_shared (p : ptr) : M unit := acquire sm_lock_shared Shared p.
Definition unlock_shared (p : ptr) : M unit := release sm_unlock_shared Shared p.

(** ** std::unique_lock and std::shared_lock *)

Record lock_handle := { pm : option ptr; owns : bool }.

Abbreviation unique_lock := lock_handle.
Abbreviation shared_lock := lock_handle.

(** A default-constructed handle. *)
Definition no_lock : lock_handle := {| pm := None; owns := false |}.

Definition owns_lock (l : lock_handle) : bool := owns l.

Definition swap (a b : lock_handle) : lock_handle * lock_handle := (b, a).

Definition shared_lock_ctor (p : ptr) : M shared_lock :=
  lock_shared p ;; ret {| pm := Some p; owns := true |}.

Definition unique_lock_ctor (p : ptr) : M unique_lock :=
  lock p ;; ret {| pm := Some p; owns := true |}.

Definition shared_lock_dtor (l : shared_lock) : M unit :=
  if owns l then
    match pm l with Some p => unlock_shared p | None => fault end
  else ret tt.

Definition unique_lock_dtor (l : unique_lock) : M unit :=
  if owns l then
    match pm l with Some p => unlock p | None => fault end
  else ret tt.

(** ** The list *)

(** [p->next], read. *)
Definition read_next (p : ptr) : M (option ptr) := λ s,
  match heap s !! p with
  | None => (Fault, s, [])
  | Some nd => (Ret (next nd), s, [EvReadNext p])
  end.

(** [p->next = q]. *)
Definition write_next (p : ptr) (q : option ptr) : M unit := λ s,
  match heap s !! p with
  | None => (Fault, s, [])
  | Some nd =>
      (Ret tt,
       set_heap (λ h, <[p := {| mutex := mutex nd; element := element nd; next := q |}]> h) s,
       [])
  end.

(** [new node(_elt)]: the member [mutex] is constructed first, then
    [element(_elt), next(nullptr)]. *)
Definition new_node (_elt : string) : M ptr :=
  mx ← verbose_mutex_ctor;
  λ s, (Ret (length (heap s)),
        set_heap (λ h, h ++ [ {| mutex := mx; element := _elt; next := None |} ]) s,
        []).

Definition get_list : M ptr := λ s,
  match list_ s with
  | Some l => (Ret l, s, [])
  | None => (Fault, s, [])
  end.

Definition set_list (p : ptr) : M unit := λ s,
  (Ret tt, {| heap := heap s; list_ := Some p; number := number s |}, []).

(** The loop of [list_add]:
    [while (insert_point->next) insert_point = insert_point->next;] *)
Fixpoint find_last (fuel : nat) (insert_point : ptr) : M ptr :=
  match fuel with
  | O => out_of_fuel
  | S fuel =>
      nx ← read_next insert_point;
      match nx with
      | Some q => find_last fuel q
      | None => ret insert_point
      end
  end.

Definition list_add (s : string) : M unit :=
  new_node_ ← new_node s;
  insert_point ← get_list;
  fuel ← (λ st, (Ret (length (heap st)), st, []));
  insert_point ← find_last fuel insert_point;
  write_next insert_point (Some new_node_).

(** [ss >> s] on a [std::istringstream]: whitespace-separated words. *)
Definition isspace (c : ascii) : bool :=
  let n := nat_of_ascii c in
  Nat.eqb n 32 || (Nat.leb 9 n && Nat.leb n 13).

Fixpoint words (cur : string) (s : string) : list string :=
  match s with
  | EmptyString => if String.eqb cur "" then [] else [cur]
  | String c s' =>
      if isspace c then
        (if String.eqb cur "" then words "" s' else cur :: words "" s')
      else words (cur +:+ String c "") s'
  end.

Fixpoint add_all (vs : list string) : M unit :=
  match vs with
  | [] => ret tt
  | v :: vs => list_add v ;; add_all vs
  end.

Definition contents : string := "The quick brown fox jumped over the lazy dog".

Definition populate_list : M unit := add_all (words "" contents).

(** [list = new node("")]. *)
Definition new_list : M unit := p ← new_node ""; set_list p.

(** The set-up of [main]. *)
Definition main_setup : M unit := new_list ;; populate_list.

(** A chain built from the payloads [vs]. *)
Definition build (vs : list string) : M unit := new_list ;; add_all vs.

(** ** lookup *)

(** [while (--n) { ... }] *)
Fixpoint lookup_loop (fuel : nat) (n : N) (read_lock : shared_lock)
    (result : ptr) : M (ptr * shared_lock) :=
  match fuel with
  | O => out_of_fuel
  | S fuel =>
      let n := uint_decr n in
      if (n =? 0)%N then ret (result, read_lock)
      else
        next_lock ← shared_lock_ctor result;
        let '(read_lock, next_lock) := swap read_lock next_lock in
        nx ← read_next result;
        match nx with
        | None =>
            throw IndexOutOfRange
              (shared_lock_dtor next_lock ;; shared_lock_dtor read_lock)
        | Some result =>
            shared_lock_dtor next_lock ;;
            lookup_loop fuel n read_lock result
        end
  end.

(** [lookup] returns the pointer and the final value of its reference
    parameter [lock].  The loop runs on a budget of [N.to_nat n]
    iterations, which is never exhausted ([fuel_free_lookup]). *)
Definition lookup (n : N) (lock : unique_lock) : M (ptr * unique_lock) :=
  l ← get_list;
  read_lock ← shared_lock_ctor l;
  result ← read_next l;
  match result with
  | None => throw EmptyChain (shared_lock_dtor read_lock)
  | Some result =>
      if (n =? 0)%N || owns_lock lock then
        throw InvalidIndex (shared_lock_dtor read_lock)
      else
        '(result, read_lock) ← lookup_loop (N.to_nat n) n read_lock result;
        result_lock ← unique_lock_ctor result;
        let '(lock, result_lock) := swap lock result_lock in
        unique_lock_dtor result_lock ;;
        shared_lock_dtor read_lock ;;
        ret (result, lock)
  end.

(** The state of [main] when its first [lookup] is called. *)
Definition main_state : state := final (main_setup initial_state).

(** ** The vocabulary of the properties *)

(** *** The structure of the list *)

(** A node without the state of its lock. *)
Definition strip (nd : node) : N * string * option ptr :=
  (serial_num (mutex nd), element nd, next nd).

(** The structure of the list: the nodes in store order, payloads,
    [next] links and lock identities, the [list] pointer and the
    identity counter; everything but the held/free state of the locks. *)
Definition structure (s : state) : list (N * string * option ptr) * option ptr * N :=
  (strip <$> heap s, list_ s, number s).

(** A computation that leaves the structure of the list as it is,
    whatever its outcome. *)
Definition preserves {A} (c : M A) : Prop :=
  ∀ s, structure (final (c s)) = structure s.

(** *** The locks a call holds, event by event *)

(** The locks held by a call, newest first. *)
Definition held := list (mode * ptr).

Fixpoint remove_one (x : mode * ptr) (h : held) : held :=
  match h with
  | [] => []
  | y :: h' => if decide (x = y) then h' else y :: remove_one x h'
  end.

Definition step_held (h : held) (ev : event) : held :=
  match ev with
  | EvAcquire md p => (md, p) :: h
  | EvRelease md p => remove_one (md, p) h
  | EvReadNext _ | EvThrow => h
  end.

Definition held_from (h : held) (t : list event) : held := foldl step_held h t.

(** The locks held by the call after the events [t] of it. *)
Definition held_after (t : list event) : held := held_from [] t.

Definition is_throw (ev : event) : bool :=
  match ev with EvThrow => true | _ => false end.

Definition thrown (t : list event) : bool := existsb is_throw t.

(** [always P h th t]: [P] holds of every event of [t], given the locks
    held just before it (starting from [h]) and whether an exception has
    been raised before it (starting from [th]). *)
Fixpoint always (P : held → bool → event → Prop) (h : held) (th : bool)
    (t : list event) : Prop :=
  match t with
  | [] => True
  | ev :: t' => P h th ev ∧ always P (step_held h ev) (th || is_throw ev) t'
  end.

Definition next_of (hp : list node) (p : ptr) : option ptr :=
  match hp !! p with Some nd => next nd | None => None end.

(** What the hand-over-hand discipline asks of one event: the bounds on
    the number of locks held once it has happened, a read of [p->next]
    with [p]'s lock held, and, outside of unwinding, a shared release of
    [p] with the lock of [p]'s successor already held. *)
Definition ok_event (hp : list node) (h : held) (th : bool) (ev : event) : Prop :=
  length (step_held h ev) ≤ 2 ∧
  (th || is_throw ev = false → 1 ≤ length (step_held h ev)) ∧
  match ev with
  | EvReadNext p => (Shared, p) ∈ h
  | EvRelease md p =>
      (md, p) ∈ h ∧
      (th = false → md = Shared ∧
         ∃ q, next_of hp p = Some q ∧ ((Shared, q) ∈ h ∨ (Exclusive, q) ∈ h))
  | EvAcquire _ _ | EvThrow => True
  end.

(** *** Stores that differ in the state of locks *)

Definition with_heap (hp : list node) (s : state) : state :=
  {| heap := hp; list_ := list_ s; number := number s |}.

Definition incr_node (nd : node) : node :=
  with_m {| readers := S (readers (m (mutex nd))); writer := writer (m (mutex nd)) |} nd.

Definition excl_node (nd : node) : node :=
  with_m {| readers := readers (m (mutex nd)); writer := true |} nd.

(** The store with one more shared holder of [p]'s lock, and with [p]'s
    lock held exclusively. *)
Definition share (p : ptr) (hp : list node) : list node := alter incr_node p hp.
Definition seize (p : ptr) (hp : list node) : list node := alter excl_node p hp.

(** The handle that owns the lock of the node at [p]. *)
Definition guard (p : ptr) : lock_handle := {| pm := Some p; owns := true |}.

(** *** Chains *)

(** [chain hp p ps]: following [next] from the node at [p] visits the
    nodes [ps], in this order, and then ends. *)
Fixpoint chain (hp : list node) (p : ptr) (ps : list ptr) : Prop :=
  match ps with
  | [] => next_of hp p = None ∧ is_Some (hp !! p)
  | q :: ps' => next_of hp p = Some q ∧ chain hp q ps'
  end.

(** The node reached from [p] by following [next] [k] times. *)
Fixpoint nth_next (hp : list node) (k : nat) (p : ptr) : option ptr :=
  match k with
  | O => Some p
  | S k => match next_of hp p with Some q => nth_next hp k q | None => None end
  end.

(** The lock of [p] admits one more shared holder; the lock of [p] is
    free. *)
Definition can_share (hp : list node) (p : ptr) : Prop :=
  ∃ nd, hp !! p = Some nd ∧ writer (m (mutex nd)) = false.

Definition is_free (hp : list node) (p : ptr) : Prop :=
  ∃ nd, hp !! p = Some nd ∧ m (mutex nd) = {| readers := 0; writer := false |}.

(** *** The store that [list_add] builds *)

Definition free_mutex : shared_mutex := {| readers := 0; writer := false |}.

(** The node at address [j] of a store holding [len] nodes linked in
    address order. *)
Definition node_at (len j : nat) (v : string) : node :=
  {| mutex := {| m := free_mutex; serial_num := (N.of_nat j mod UINT_MOD)%N |};
     element := v;
     next := if decide (S j < len) then Some (S j) else None |}.

Definition layout (ws : list string) : list node :=
  imap (node_at (length ws)) ws.

(** The state after [list = new node("")] and one [list_add] per payload
    of [vs]. *)
Definition built_state (vs : list string) : state :=
  {| heap := layout ("" :: vs);
     list_ := Some 0;
     number := (N.of_nat (S (length vs)) mod UINT_MOD)%N |}.

(** *** Runs *)

(** A computation that never exhausts its loop budget. *)
Definition fuel_free {A} (c : M A) : Prop := ∀ s, outcome (c s) ≠ OutOfFuel.

(** The checks at the head of [lookup], when the lock of the sentinel
    can be shared: what the call does if one of them fails. *)
Definition early_trace (l : ptr) : list event :=
  [EvAcquire Shared l; EvReadNext l; EvThrow; EvRelease Shared l].

(** *** Lock identities *)

(** The state after [j] locks have been constructed, and the identity
    given to the lock constructed next, the [j]-th of the process
    counting from zero. *)
Definition after_constructions (j : N) (s : state) : state :=
  N.iter j (λ s, final (verbose_mutex_ctor s)) s.

Definition nth_serial (j : N) : option N :=
  match outcome (verbose_mutex_ctor (after_constructions j initial_state)) with
  | Ret mx => Some (serial_num mx)
  | _ => None
  end.

(** *** Work and the reader-writer discipline *)

(** A computation that records at most [k] events, whatever the state
    and the outcome. *)
Definition cost {A} (c : M A) (k : nat) : Prop :=
  ∀ s, length (trace (c s)) ≤ k.

(** A [std::shared_mutex] is never held exclusively and shared at the
    same time. *)
Definition mutex_ok (x : shared_mutex) : Prop :=
  writer x = true → readers x = 0.

Definition store_ok (s : state) : Prop :=
  Forall (λ nd, mutex_ok (m (mutex nd))) (heap s).

(** A computation that keeps [store_ok], whatever its outcome. *)
Definition keeps {A} (c : M A) : Prop :=
  ∀ s, store_ok s → store_ok (final (c s)).

(** * The dynamic map (dynmap.cpp)

    Strings are given serial numbers on demand.  The map of a
    [dynamic_map] holds a [std::weak_ptr] per string; the callers hold
    the [std::shared_ptr]s.  A managed object is destroyed when its use
    count falls to zero; its control block stays, so that a weak pointer
    to it can tell that it has expired. *)

Module dynmap.

Record serial_no := { this_num : N }.

(** An object managed by shared pointers, with its use count. *)
Record managed := { object : serial_no; use_count : nat }.

(** A [std::weak_ptr<serial_no>]: empty, or the address of a managed
    object.  A non-null [std::shared_ptr<serial_no>] is given by the
    address of the object it owns. *)
Abbreviation weak_ptr := (option nat).

(** The managed objects, the static counter [serial_no::number] and the
    member [map] of the one [dynamic_map]. *)
Record state := {
  store : list managed;
  number : N;
  map : gmap string weak_ptr
}.

(** [serial_no::number = 1], an empty map. *)
Definition initial_state : state :=
  {| store := []; number := 1%N; map := ∅ |}.

(** What the program prints. *)
Inductive output :=
| Creating (n : N)
| Destroying (n : N)
| Returning (s : string) (n : N).

(** [map[s]]: a missing key is inserted with an empty weak pointer. *)
Definition subscript (s : string) (mp : gmap string weak_ptr)
    : weak_ptr * gmap string weak_ptr :=
  match mp !! s with
  | Some w => (w, mp)
  | None => (None, <[s := None]> mp)
  end.

(** [tentative.lock()]: a shared pointer to the object if it is still
    alive, null otherwise. *)
Definition weak_lock (w : weak_ptr) (sto : list managed)
    : option nat * list managed :=
  match w with
  | None => (None, sto)
  | Some p =>
      match sto !! p with
      | Some c =>
          if Nat.eqb (use_count c) 0 then (None, sto)
          else (Some p,
                <[p := {| object := object c; use_count := S (use_count c) |}]> sto)
      | None => (None, sto)
      end
  end.

(** [std::make_shared<serial_no>()], with the constructor
    [this_num(number++)] and what it prints. *)
Definition make_shared (sto : list managed) (num : N)
    : nat * list managed * N * list output :=
  (length sto,
   sto ++ [ {| object := {| this_num := num |}; use_count := 1 |} ],
   uint_incr num,
   [Creating num]).

(** [result->this_num] *)
Definition this_num_at (sto : list managed) (p : nat) : N :=
  match sto !! p with Some c => this_num (object c) | None => 0%N end.

(** dynamic_map::lookup.  The pointer returned is never null; the
    result is the address of the object it owns. *)
Definition lookup (s : string) (st : state) : nat * state * list output :=
  let '(tentative, mp) := subscript s (map st) in
  let '(result, sto) := weak_lock tentative (store st) in
  match result with
  | Some p =>
      (p, {| store := sto; number := number st; map := mp |},
       [Returning s (this_num_at sto p)])
  | None =>
      let '(p, sto, num, out) := make_shared sto (number st) in
      (p, {| store := sto; number := num; map := <[s := Some p]> mp |},
       out ++ [Returning s (this_num_at sto p)])
  end.

(** A shared pointer that owns the object at [p] goes out of scope or is
    assigned [nullptr]: the last one destroys the object.  No shared
    pointer owns an object whose use count is zero. *)
Definition drop (p : nat) (st : state) : option (state * list output) :=
  match store st !! p with
  | Some c =>
      match use_count c with
      | 0 => None
      | S k =>
          Some ({| store := <[p := {| object := object c; use_count := k |}]> (store st);
                   number := number st; map := map st |},
                if Nat.eqb k 0 then [Destroying (this_num (object c))] else [])
      end
  | None => None
  end.

Definition result {A} (x : A * state * list output) : A := x.1.1.
Definition after {A} (x : A * state * list output) : state := x.1.2.
Definition printed {A} (x : A * state * list output) : list output := x.2.

(** Lookups one after the other, none of the results dropped. *)
Fixpoint lookups (ss : list string) (st : state)
    : list nat * state * list output :=
  match ss with
  | [] => ([], st, [])
  | s :: ss =>
      let '(p, st1, o1) := lookup s st in
      let '(ps, st2, o2) := lookups ss st1 in
      (p :: ps, st2, o1 ++ o2)
  end.

(** The use count of the object at [p]; zero if there is none. *)
Definition use_count_at (st : state) (p : nat) : nat :=
  match store st !! p with Some c => use_count c | None => 0 end.

(** No live object stands behind the string [s]. *)
Definition expired (st : state) (s : string) : Prop :=
  match map st !! s with
  | Some (Some p) => use_count_at st p = 0
  | _ => True
  end.

(** The map refers to allocated objects only, no two strings to the
    same one; the objects are numbered in the order of their creation,
    from 1, modulo [2^32]. *)
Definition wf (st : state) : Prop :=
  (∀ s p, map st !! s = Some (Some p) → p < length (store st)) ∧
  (∀ s1 s2 p, map st !! s1 = Some (Some p) → map st !! s2 = Some (Some p) →
              s1 = s2) ∧
  (∀ p c, store st !! p = Some c →
          this_num (object c) = ((N.of_nat p + 1) mod UINT_MOD)%N) ∧
  number st = ((N.of_nat (length (store st)) + 1) mod UINT_MOD)%N.

(** The run of [main]. *)
Definition main : option (state * list output) :=
  let '(p1, st, o1) := lookup "P" initial_state in
  let '(q1, st, o2) := lookup "Q" st in
  let '(p2, st, o3) := lookup "P" st in
  let '(q2, st, o4) := lookup "Q" st in
  let '(r2, st, o5) := lookup "R" st in
  drop r2 st ≫= λ '(st, o6),
  drop q2 st ≫= λ '(st, o7),
  drop p2 st ≫= λ '(st, o8),
  drop q1 st ≫= λ '(st, o9),
  let '(p2, st, o10) := lookup "P" st in
  let '(q2, st, o11) := lookup "Q" st in
  let '(r2, st, o12) := lookup "R" st in
  drop r2 st ≫= λ '(st, o13),
  drop q2 st ≫= λ '(st, o14),
  drop p2 st ≫= λ '(st, o15),
  drop p1 st ≫= λ '(st, o16),
  Some (st, o1 ++ o2 ++ o3 ++ o4 ++ o5 ++ o6 ++ o7 ++ o8 ++ o9 ++ o10 ++
            o11 ++ o12 ++ o13 ++ o14 ++ o15 ++ o16).

End dynmap.

(** * Proofs *)

(** ** [unsigned int] arithmetic *)

Lemma uint_decr_lt n : (uint_decr n < UINT_MOD)%N.
Proof. apply N.mod_lt. done. Qed.

Lemma uint_decr_pos n : (0 < n < UINT_MOD)%N → uint_decr n = (n - 1)%N.
Proof.
  intros Hn. unfold uint_decr.
  replace (n + (UINT_MOD - 1))%N with ((n - 1) + 1 * UINT_MOD)%N
    by (unfold UINT_MOD in *; lia).
  rewrite N.Div0.mod_add. apply N.mod_small. lia.
Qed.

Lemma uint_decr_le n : (0 < n)%N → (uint_decr n < n)%N.
Proof.
  intros Hn. unfold uint_decr.
  replace (n + (UINT_MOD - 1))%N with ((n - 1) + 1 * UINT_MOD)%N
    by (unfold UINT_MOD in *; lia).
  rewrite N.Div0.mod_add.
  pose proof (N.Div0.mod_le (n - 1) UINT_MOD). lia.
Qed.

(** ** What a call may change: the frame *)

Lemma strip_with_m x nd : strip (with_m x nd) = strip nd.
Proof. reflexivity. Qed.

Lemma fmap_strip_insert (hp : list node) p nd x :
  hp !! p = Some nd → strip <$> <[p := with_m x nd]> hp = strip <$> hp.
Proof.
  intros Hp. rewrite list_fmap_insert, strip_with_m.
  apply list_insert_id. by rewrite list_lookup_fmap, Hp.
Qed.

Lemma preserves_ret {A} (a : A) : preserves (ret a).
Proof. by intros s. Qed.

Lemma preserves_fault {A} : preserves (@fault A).
Proof. by intros s. Qed.

Lemma preserves_out_of_fuel {A} : preserves (@out_of_fuel A).
Proof. by intros s. Qed.

Lemma preserves_bind {A B} (c : M A) (k : A → M B) :
  preserves c → (∀ a, preserves (k a)) → preserves (bind c k).
Proof.
  intros Hc Hk s. specialize (Hc s). unfold bind, final in *.
  destruct (c s) as [[[a| | | |] s1] t1]; simpl in *; try done.
  specialize (Hk a s1). unfold final in Hk.
  destruct (k a s1) as [[r s2] t2]; simpl in *. congruence.
Qed.

Lemma preserves_throw {A} e (c : M unit) : preserves c → preserves (@throw A e c).
Proof.
  intros Hc s. specialize (Hc s). unfold throw, final in *.
  by destruct (c s) as [[[a| | | |] s1] t1].
Qed.

Lemma preserves_acquire op md p : preserves (acquire op md p).
Proof.
  intros s. unfold acquire, final, structure.
  destruct (heap s !! p) as [nd|] eqn:Hp; simpl; [|done].
  destruct (op _); simpl; [|done]. by rewrite fmap_strip_insert.
Qed.

Lemma preserves_release op md p : preserves (release op md p).
Proof.
  intros s. unfold release, final, structure.
  destruct (heap s !! p) as [nd|] eqn:Hp; simpl; [|done].
  destruct (op _); simpl; [|done]. by rewrite fmap_strip_insert.
Qed.

Lemma preserves_read_next p : preserves (read_next p).
Proof. intros s. unfold read_next, final. by destruct (heap s !! p). Qed.

Lemma preserves_get_list : preserves get_list.
Proof. intros s. unfold get_list, final. by destruct (list_ s). Qed.

Lemma preserves_shared_lock_ctor p : preserves (shared_lock_ctor p).
Proof.
  apply preserves_bind; [apply preserves_acquire | intros; apply preserves_ret].
Qed.

Lemma preserves_unique_lock_ctor p : preserves (unique_lock_ctor p).
Proof.
  apply preserves_bind; [apply preserves_acquire | intros; apply preserves_ret].
Qed.

Lemma preserves_shared_lock_dtor l : preserves (shared_lock_dtor l).
Proof.
  unfold shared_lock_dtor. destruct (owns l); [|apply preserves_ret].
  destruct (pm l); [apply preserves_release | apply preserves_fault].
Qed.

Lemma preserves_unique_lock_dtor l : preserves (unique_lock_dtor l).
Proof.
  unfold unique_lock_dtor. destruct (owns l); [|apply preserves_ret].
  destruct (pm l); [apply preserves_release | apply preserves_fault].
Qed.

Create HintDb frame.
#[local] Hint Resolve preserves_ret preserves_fault preserves_out_of_fuel
  preserves_throw preserves_read_next preserves_get_list
  preserves_shared_lock_ctor preserves_unique_lock_ctor
  preserves_shared_lock_dtor preserves_unique_lock_dtor : frame.

Lemma preserves_lookup_loop fuel n read_lock result :
  preserves (lookup_loop fuel n read_lock result).
Proof.
  revert n read_lock result.
  induction fuel as [|fuel IH]; intros n read_lock result; simpl;
    [auto with frame|].
  destruct (uint_decr n =? 0)%N; [auto with frame|].
  apply preserves_bind; [auto with frame|]. intros next_lock.
  apply preserves_bind; [auto with frame|]. intros [q|].
  - apply preserves_bind; auto with frame.
  - apply preserves_throw, preserves_bind; auto with frame.
Qed.

Lemma preserves_lookup n lock_ : preserves (lookup n lock_).
Proof.
  unfold lookup.
  apply preserves_bind; [auto with frame|]. intros l.
  apply preserves_bind; [auto with frame|]. intros read_lock.
  apply preserves_bind; [auto with frame|]. intros [result|]; [|auto with frame].
  destruct (_ || _); [auto with frame|].
  apply preserves_bind; [apply preserves_lookup_loop|]. intros [r rl].
  apply preserves_bind; [auto with frame|]. intros result_lock. simpl.
  repeat (apply preserves_bind; [auto with frame|]; intros).
  auto with frame.
Qed.

(** ** Locks held along a run *)

Lemma held_from_cons h ev t :
  held_from h (ev :: t) = held_from (step_held h ev) t.
Proof. done. Qed.

Lemma held_from_app h t1 t2 :
  held_from h (t1 ++ t2) = held_from (held_from h t1) t2.
Proof. apply foldl_app. Qed.

Lemma thrown_app t1 t2 : thrown (t1 ++ t2) = thrown t1 || thrown t2.
Proof. apply existsb_app. Qed.

Lemma always_app P h th t1 t2 :
  always P h th (t1 ++ t2) ↔
  always P h th t1 ∧ always P (held_from h t1) (th || thrown t1) t2.
Proof.
  revert h th. induction t1 as [|ev t1 IH]; intros h th; simpl.
  - rewrite orb_false_r. tauto.
  - rewrite IH, orb_assoc. tauto.
Qed.

Lemma always_prefix P h th t pre ev suf :
  always P h th t → t = pre ++ ev :: suf →
  P (held_from h pre) (th || thrown pre) ev.
Proof.
  intros Ht ->. apply always_app in Ht as [_ Ht]. simpl in Ht. tauto.
Qed.

Lemma remove_one_head x h : remove_one x (x :: h) = h.
Proof. simpl. by rewrite decide_True. Qed.

Lemma remove_one_second x y : remove_one x [y; x] = [y].
Proof.
  simpl. destruct (decide (x = y)) as [->|]; [done|]. by rewrite decide_True.
Qed.

Lemma elem_of_held_from x h t :
  x ∈ held_from h t → x ∈ h ∨ EvAcquire x.1 x.2 ∈ t.
Proof.
  revert h. induction t as [|ev t IH]; intros h; simpl; [auto|].
  intros [Hx|Hx]%IH; [|right; by right].
  destruct ev as [md p|md p|p|]; simpl in Hx; auto.
  - apply elem_of_cons in Hx as [->|]; [right; left; done|auto].
  - left. clear -Hx. induction h as [|y h IHh]; simpl in *; [done|].
    destruct (decide _); [by right|].
    apply elem_of_cons in Hx as [->|]; [left|right; auto].
Qed.

(** ** The lock operations on the store *)

Lemma with_heap_id s : with_heap (heap s) s = s.
Proof. by destruct s. Qed.

Lemma with_heap_with_heap hp hp' s : with_heap hp (with_heap hp' s) = with_heap hp s.
Proof. done. Qed.

Lemma insert_as_alter (hp : list node) p nd (f : node → node) :
  hp !! p = Some nd → <[p := f nd]> hp = alter f p hp.
Proof.
  intros Hp. rewrite list_insert_alter.
  apply list_alter_ext; [|done]. intros x Hx. congruence.
Qed.

Lemma lock_shared_run p s :
  lock_shared p s =
    match heap s !! p with
    | None => (Fault, s, [])
    | Some nd =>
        if writer (m (mutex nd)) then (Block p, s, [])
        else (Ret tt, with_heap (share p (heap s)) s, [EvAcquire Shared p])
    end.
Proof.
  unfold lock_shared, acquire, sm_lock_shared.
  destruct (heap s !! p) as [nd|] eqn:Hp; [|done].
  destruct (writer _) eqn:Hw; [done|].
  unfold set_heap, with_heap, share. do 3 f_equal.
  rewrite <- (insert_as_alter _ _ nd) by done.
  unfold incr_node. by rewrite Hw.
Qed.

Lemma lock_run p s :
  lock p s =
    match heap s !! p with
    | None => (Fault, s, [])
    | Some nd =>
        if writer (m (mutex nd)) || negb (Nat.eqb (readers (m (mutex nd))) 0)
        then (Block p, s, [])
        else (Ret tt, with_heap (seize p (heap s)) s, [EvAcquire Exclusive p])
    end.
Proof.
  unfold lock, acquire, sm_lock.
  destruct (heap s !! p) as [nd|] eqn:Hp; [|done].
  destruct (_ || _) eqn:Hw; [done|].
  unfold set_heap, with_heap, seize. do 3 f_equal.
  by rewrite <- (insert_as_alter _ _ nd) by done.
Qed.

Lemma decr_incr_node x nd :
  sm_unlock_shared (m (mutex (incr_node nd))) = Some x → with_m x (incr_node nd) = nd.
Proof. destruct nd as [[[r w] sn] e nx]. simpl. by intros [= <-]. Qed.

Lemma unlock_shared_share p hp s :
  heap s = share p hp → is_Some (hp !! p) →
  unlock_shared p s = (Ret tt, with_heap hp s, [EvRelease Shared p]).
Proof.
  intros Hs [nd Hp]. unfold unlock_shared, release.
  rewrite Hs. unfold share at 1. rewrite list_lookup_alter_eq. rewrite Hp. simpl.
  unfold set_heap, with_heap. rewrite Hs. do 3 f_equal.
  unfold share. rewrite list_insert_alter, list_alter_alter_eq.
  transitivity (alter id p hp); [|by apply list_alter_id].
  apply list_alter_ext; [|done]. intros x Hx.
  assert (x = nd) as -> by congruence.
  by destruct nd as [[[r w] sn] e nx].
Qed.

Lemma share_comm p q hp : share p (share q hp) = share q (share p hp).
Proof.
  unfold share. destruct (decide (p = q)) as [->|]; [done|].
  by apply list_alter_alter_ne.
Qed.

Lemma share_seize_comm p q hp : p ≠ q → seize p (share q hp) = share q (seize p hp).
Proof. intros. by apply list_alter_alter_ne. Qed.

Lemma lookup_share_is_Some p q (hp : list node) :
  is_Some (share p hp !! q) ↔ is_Some (hp !! q).
Proof. unfold share. by rewrite !lookup_lt_is_Some, length_alter. Qed.

Lemma lookup_seize_is_Some p q (hp : list node) :
  is_Some (seize p hp !! q) ↔ is_Some (hp !! q).
Proof. unfold seize. by rewrite !lookup_lt_is_Some, length_alter. Qed.

Lemma next_of_share p q hp : next_of (share p hp) q = next_of hp q.
Proof.
  unfold next_of, share. rewrite list_lookup_alter.
  case_decide; subst; [|done]. by destruct (hp !! q).
Qed.

Lemma shared_lock_ctor_run p s :
  shared_lock_ctor p s =
    match heap s !! p with
    | None => (Fault, s, [])
    | Some nd =>
        if writer (m (mutex nd)) then (Block p, s, [])
        else (Ret (guard p), with_heap (share p (heap s)) s, [EvAcquire Shared p])
    end.
Proof.
  unfold shared_lock_ctor, bind. rewrite lock_shared_run.
  destruct (heap s !! p) as [nd|]; [|done]. by destruct (writer _).
Qed.

Lemma unique_lock_ctor_run p s :
  unique_lock_ctor p s =
    match heap s !! p with
    | None => (Fault, s, [])
    | Some nd =>
        if writer (m (mutex nd)) || negb (Nat.eqb (readers (m (mutex nd))) 0)
        then (Block p, s, [])
        else (Ret (guard p), with_heap (seize p (heap s)) s, [EvAcquire Exclusive p])
    end.
Proof.
  unfold unique_lock_ctor, bind. rewrite lock_run.
  destruct (heap s !! p) as [nd|]; [|done]. by destruct (_ || _).
Qed.

Lemma read_next_run p s :
  read_next p s =
    match heap s !! p with
    | None => (Fault, s, [])
    | Some nd => (Ret (next nd), s, [EvReadNext p])
    end.
Proof. done. Qed.

(** One step of the walk, from the store in which only [prev] is held:
    the lock of [result] is taken, [result->next] is read, and the lock
    of [prev] is dropped. *)
Lemma read_next_after_share p hp s nd :
  hp !! p = Some nd →
  read_next p (with_heap (share p hp) s) =
    (Ret (next nd), with_heap (share p hp) s, [EvReadNext p]).
Proof.
  intros Hp. rewrite read_next_run. simpl. unfold share.
  by rewrite list_lookup_alter_eq, Hp.
Qed.

Lemma unlock_prev_after_share prev result hp0 s :
  is_Some (hp0 !! prev) →
  unlock_shared prev (with_heap (share result (share prev hp0)) s) =
    (Ret tt, with_heap (share result hp0) s, [EvRelease Shared prev]).
Proof.
  intros Hprev. rewrite share_comm.
  rewrite (unlock_shared_share prev (share result hp0)); [done|done|].
  by apply lookup_share_is_Some.
Qed.

Lemma unlock_after_share p hp0 s :
  is_Some (hp0 !! p) →
  unlock_shared p (with_heap (share p hp0) s) =
    (Ret tt, with_heap hp0 s, [EvRelease Shared p]).
Proof. intros Hp. by rewrite (unlock_shared_share p hp0). Qed.

Ltac solve_elem := rewrite ?elem_of_cons; by eauto 6.

Ltac solve_ok :=
  unfold ok_event; cbn [step_held is_throw orb];
  rewrite ?remove_one_second, ?remove_one_head;
  repeat split; simpl; try lia; try done; try (intros; discriminate);
  try solve_elem;
  try (eexists; solve_elem);
  try (eexists; split; [eassumption|solve_elem]).

Lemma unlock_prev_after_seize prev result hp0 s :
  result ≠ prev → is_Some (hp0 !! prev) →
  unlock_shared prev (with_heap (seize result (share prev hp0)) s) =
    (Ret tt, with_heap (seize result hp0) s, [EvRelease Shared prev]).
Proof.
  intros Hne Hprev. rewrite share_seize_comm by done.
  rewrite (unlock_shared_share prev (seize result hp0)); [done|done|].
  by apply lookup_seize_is_Some.
Qed.

Section loop_invariant.

(** The store [hp0] at the start of the call, in which the call holds
    nothing yet. *)
Variable hp0 : list node.

(** The invariant of the loop of [lookup], in any store: on entry
    [read_lock] holds the shared lock of [prev], whose [next] is
    [result], and nothing else is held by the call. *)
Lemma lookup_loop_inv fuel : ∀ n prev result s r s' t,
  heap s = share prev hp0 → is_Some (hp0 !! prev) →
  next_of hp0 prev = Some result →
  lookup_loop fuel n (guard prev) result s = (r, s', t) →
  always (ok_event hp0) [(Shared, prev)] false t ∧
  match r with
  | Ret (result', rl) =>
      ∃ prev', rl = guard prev' ∧ s' = with_heap (share prev' hp0) s ∧
        is_Some (hp0 !! prev') ∧ next_of hp0 prev' = Some result' ∧
        held_from [(Shared, prev)] t = [(Shared, prev')] ∧ thrown t = false ∧
        nth_next hp0 (N.to_nat (uint_decr n)) prev = Some prev'
  | Throw e =>
      e = IndexOutOfRange ∧ s' = with_heap hp0 s ∧
      held_from [(Shared, prev)] t = [] ∧
      ∃ p, next_of hp0 p = None ∧ EvReadNext p ∈ t
  | _ => True
  end.
Proof.
  induction fuel as [|fuel IH]; intros n prev result s r s' t Hs Hprev Hnext;
    simpl.
  { intros [= <- <- <-]. done. }
  destruct (N.eqb_spec (uint_decr n) 0) as [Hz|Hnz].
  { intros [= <- <- <-]. split; [done|]. exists prev.
    rewrite <- Hs, with_heap_id, Hz. done. }
  unfold bind at 1. rewrite shared_lock_ctor_run.
  destruct (heap s !! result) as [nd|] eqn:Hres; [|by intros [= <- <- <-]].
  destruct (writer (m (mutex nd))); [by intros [= <- <- <-]|].
  assert (is_Some (hp0 !! result)) as [nd0 Hres0].
  { apply (lookup_share_is_Some prev). rewrite <- Hs. eauto. }
  rewrite Hs in Hres |- *. unfold swap, bind at 1.
  rewrite (read_next_after_share _ _ _ _ Hres).
  assert (next_of hp0 result = next nd) as Hnx.
  { rewrite <- (next_of_share prev). unfold next_of. by rewrite Hres. }
  change (shared_lock_dtor (guard ?p)) with (unlock_shared p).
  destruct (next nd) as [q|].
  - unfold bind at 1. rewrite unlock_prev_after_share by done.
    destruct (lookup_loop fuel _ _ _ _) as [[r2 s2] t2] eqn:Hloop.
    apply IH in Hloop as [Halw Hr2]; [|done|eauto|done].
    intros [= <- <- <-].
    change (?a ++ ?b ++ ?c ++ t2) with (EvAcquire Shared result :: EvReadNext result :: EvRelease Shared prev :: t2).
    split.
    + cbn [always step_held is_throw orb]. rewrite remove_one_second.
      split_and!; [solve_ok..|done].
    + rewrite !held_from_cons. cbn [step_held thrown existsb is_throw orb].
      rewrite remove_one_second. fold (thrown t2).
      destruct r2 as [[result' rl]|e| | |]; [| |done..].
      * destruct Hr2 as (prev' & ? & ? & ? & ? & ? & ? & Hnth).
        exists prev'. split_and!; [done..|].
        pose proof (uint_decr_lt n).
        rewrite uint_decr_pos in Hnth by lia.
        replace (N.to_nat (uint_decr n)) with (S (N.to_nat (uint_decr n - 1)))
          by lia.
        simpl. by rewrite Hnext.
      * destruct Hr2 as (? & ? & ? & p & ? & ?). split_and!; [done..|].
        exists p. split; [done|]. by do 3 right.
  - unfold throw, bind at 1. rewrite unlock_prev_after_share by done.
    rewrite unlock_after_share by eauto.
    intros [= <- <- <-]. split.
    + cbn [always step_held is_throw orb].
      rewrite remove_one_second.
      split_and!; [solve_ok..|done].
    + split_and!; [done..| |].
      * rewrite !held_from_cons. cbn [step_held].
        by rewrite remove_one_second, remove_one_head.
      * exists result. split; [done|]. right. by left.
Qed.

End loop_invariant.

Lemma get_list_run s :
  get_list s = match list_ s with Some l => (Ret l, s, []) | None => (Fault, s, []) end.
Proof. done. Qed.

Ltac solve_post :=
  split_and?; eauto;
  unfold held_after; cbn [app]; rewrite ?held_from_cons; cbn [step_held];
  rewrite ?remove_one_second, ?remove_one_head; eauto.

Lemma nth_next_snoc hp : ∀ k p q r,
  nth_next hp k p = Some q → next_of hp q = Some r →
  nth_next hp (S k) p = Some r.
Proof.
  induction k as [|k IH]; intros p q r Hk Hr.
  - injection Hk as ->. simpl. by rewrite Hr.
  - simpl in Hk. change (nth_next hp (S (S k)) p)
      with (match next_of hp p with
            | Some p' => nth_next hp (S k) p' | None => None end).
    destruct (next_of hp p) as [p'|]; [|done]. by apply (IH p' q r).
Qed.

(** What every call of [lookup] does, in any store. *)
Lemma lookup_inv n lock_ s r s' t :
  lookup n lock_ s = (r, s', t) →
  always (ok_event (heap s)) [] false t ∧
  match r with
  | Ret (result, lk) =>
      n ≠ 0%N ∧ owns lock_ = false ∧ lk = guard result ∧
      s' = with_heap (seize result (heap s)) s ∧
      (∃ nd, heap s !! result = Some nd ∧
             m (mutex nd) = {| readers := 0; writer := false |}) ∧
      held_after t = [(Exclusive, result)] ∧ thrown t = false ∧
      ∃ l, list_ s = Some l ∧
           nth_next (heap s) (S (N.to_nat (uint_decr n))) l = Some result
  | Throw e =>
      s' = s ∧ held_after t = [] ∧
      ∃ l, list_ s = Some l ∧
        (e = EmptyChain ∧ next_of (heap s) l = None ∨
         e = InvalidIndex ∧ is_Some (next_of (heap s) l) ∧
           (n = 0%N ∨ owns lock_ = true) ∨
         e = IndexOutOfRange ∧ is_Some (next_of (heap s) l) ∧
           n ≠ 0%N ∧ owns lock_ = false ∧
           ∃ p, next_of (heap s) p = None ∧ EvReadNext p ∈ t)
  | _ => True
  end.
Proof.
  unfold lookup, bind at 1. rewrite get_list_run.
  destruct (list_ s) as [l|] eqn:Hlist; [|by intros [= <- <- <-]].
  unfold bind at 1. rewrite shared_lock_ctor_run.
  destruct (heap s !! l) as [ndl|] eqn:Hl; [|by intros [= <- <- <-]].
  destruct (writer (m (mutex ndl))); [by intros [= <- <- <-]|].
  unfold bind at 1. rewrite (read_next_after_share _ _ _ _ Hl).
  change (shared_lock_dtor (guard ?p)) with (unlock_shared p).
  assert (next_of (heap s) l = next ndl) as Hnxl by (unfold next_of; by rewrite Hl).
  destruct (next ndl) as [result|] eqn:Hnx.
  2:{ unfold throw. rewrite unlock_after_share by eauto. rewrite with_heap_id.
      intros [= <- <- <-]. split.
      - cbn [app always step_held is_throw orb].
        split_and!; [solve_ok..|done].
      - split_and!; [done|by solve_post|]. exists l. split; [done|]. by left. }
  destruct (_ || _) eqn:Hargs.
  { unfold throw. rewrite unlock_after_share by eauto. rewrite with_heap_id.
    intros [= <- <- <-]. split.
    - cbn [app always step_held is_throw orb].
      split_and!; [solve_ok..|done].
    - split_and!; [done|by solve_post|]. exists l. split; [done|].
      right; left. split_and!; [done|by rewrite Hnxl|].
      apply orb_true_iff in Hargs as [Hn|Hown]; [left|by right].
      by apply N.eqb_eq in Hn. }
  apply orb_false_elim in Hargs as [Hn Hown]. apply N.eqb_neq in Hn.
  unfold bind at 1.
  destruct (lookup_loop _ _ _ _ _) as [[r1 s1] t1] eqn:Hloop.
  apply (lookup_loop_inv (heap s)) in Hloop as [Halw Hr1];
    [|done|eauto|by unfold next_of; rewrite Hl].
  assert (∀ t2, always (ok_event (heap s)) (held_from [(Shared, l)] t1)
                  (thrown t1) t2 →
            always (ok_event (heap s)) []      false
              ([EvAcquire Shared l] ++ [EvReadNext l] ++ t1 ++ t2)) as Hpre.
  { intros t2 Ht2. cbn [app always step_held is_throw orb].
    split_and!; [solve_ok..|]. apply always_app. by split. }
  pose proof (Hpre [] I) as Hpre0. rewrite app_nil_r in Hpre0.
  destruct r1 as [[result' rl]|e| | |].
  - destruct Hr1 as (prev' & -> & -> & Hprev' & Hnext' & Hheld & Hthr & Hnth).
    unfold bind at 1. rewrite unique_lock_ctor_run. cbn [heap with_heap].
    destruct (share prev' (heap s) !! result') as [ndr|] eqn:Hr;
      [|intros [= <- <- <-]; split; [|done]; by apply (Hpre [])].
    destruct (_ || _) eqn:Hfree;
      [intros [= <- <- <-]; split; [|done]; by apply (Hpre [])|].
    apply orb_false_elim in Hfree as [Hw Hrd].
    apply negb_false_iff, Nat.eqb_eq in Hrd.
    assert (result' ≠ prev') as Hne.
    { intros ->. destruct Hprev' as [x Hx]. unfold share in Hr.
      rewrite list_lookup_alter_eq, Hx in Hr. by simplify_eq/=. }
    assert (heap s !! result' = Some ndr) as Hr0.
    { unfold share in Hr. by rewrite list_lookup_alter_ne in Hr. }
    unfold swap, unique_lock_dtor. unfold owns_lock in Hown. rewrite Hown.
    unfold bind, ret.
    change (shared_lock_dtor (guard ?p)) with (unlock_shared p).
    rewrite unlock_prev_after_seize by done.
    intros [= <- <- <-]. split.
    + apply Hpre. rewrite Hheld, Hthr. cbn [app always step_held is_throw orb].
      split_and!; [solve_ok..|done].
    + split_and!; [done..| | | |].
      * exists ndr. split; [done|]. destruct (m (mutex ndr)); simpl in *; congruence.
      * unfold held_after. rewrite !held_from_cons. cbn [step_held].
        rewrite held_from_app, Hheld, !held_from_cons. cbn [step_held].
        by rewrite remove_one_second.
      * cbn [app thrown existsb is_throw orb]. fold (thrown (t1 ++ [EvAcquire Exclusive result'; EvRelease Shared prev'])).
        by rewrite thrown_app, Hthr.
      * exists l. split; [done|]. by apply (nth_next_snoc _ _ _ prev').
  - destruct Hr1 as (-> & -> & Hheld & p & Hp & Hin).
    intros [= <- <- <-]. split; [done|].
    rewrite with_heap_with_heap, with_heap_id. split_and!; [done| |].
    + unfold held_after. cbn [app]. rewrite !held_from_cons. cbn [step_held].
      by rewrite Hheld.
    + exists l. split; [done|]. right; right.
      split_and!; [done|by rewrite Hnxl|done|done|].
      exists p. split; [done|]. by do 2 right.
  - by intros [= <- <- <-].
  - by intros [= <- <- <-].
  - by intros [= <- <- <-].
Qed.

(** ** Chains *)

Lemma is_free_can_share hp p : is_free hp p → can_share hp p.
Proof. intros (nd & ? & Hm). exists nd. by rewrite Hm. Qed.

Lemma chain_is_Some hp p ps : chain hp p ps → is_Some (hp !! p).
Proof.
  destruct ps as [|q ps]; simpl; [tauto|]. unfold next_of.
  intros [Hp _]. by destruct (hp !! p).
Qed.

Lemma chain_functional hp : ∀ ps1 ps2 p, chain hp p ps1 → chain hp p ps2 → ps1 = ps2.
Proof.
  induction ps1 as [|q ps1 IH]; intros [|q' ps2] p; simpl; try done.
  - intros [? _] [? _]. congruence.
  - intros [? _] [? _]. congruence.
  - intros [Hq H1] [Hq' H2]. assert (q = q') as <- by congruence.
    f_equal. eauto.
Qed.

Lemma chain_no_self_loop hp p ps : chain hp p (p :: ps) → False.
Proof.
  intros Hc. assert (p :: ps = ps) as Heq.
  { eapply chain_functional; [exact Hc|]. by destruct Hc. }
  apply (f_equal length) in Heq. simpl in Heq. lia.
Qed.

(** The suffix of a chain is a chain. *)
Lemma chain_lookup hp : ∀ ps p i q,
  chain hp p ps → (p :: ps) !! i = Some q → chain hp q (drop i ps).
Proof.
  induction ps as [|p' ps IH]; intros p [|i] q Hc Hi; simplify_eq/=; try done.
  destruct Hc as [_ Hc]. by apply (IH p' i).
Qed.

(** ** The walk along a chain *)

Lemma can_share_share hp p q : can_share hp q → can_share (share p hp) q.
Proof.
  intros (nd & Hq & Hw). unfold can_share, share. rewrite list_lookup_alter.
  case_decide; subst; rewrite Hq; simpl; eauto.
Qed.

Lemma shared_lock_ctor_ok p s :
  can_share (heap s) p →
  shared_lock_ctor p s =
    (Ret (guard p), with_heap (share p (heap s)) s, [EvAcquire Shared p]).
Proof. intros (nd & Hp & Hw). by rewrite shared_lock_ctor_run, Hp, Hw. Qed.

Lemma read_next_ok p s :
  is_Some (heap s !! p) →
  read_next p s = (Ret (next_of (heap s) p), s, [EvReadNext p]).
Proof. intros [nd Hp]. unfold next_of. by rewrite read_next_run, Hp. Qed.

Lemma next_of_Some_lookup hp p q :
  next_of hp p = Some q → ∃ nd, hp !! p = Some nd ∧ next nd = Some q.
Proof. unfold next_of. destruct (hp !! p); [eauto|done]. Qed.

Section walk.

Variable hp0 : list node.

(** With [j] iterations to go from [prev], [result], the loop ends at
    the [j]-th node after [result] if the chain is long enough, and
    throws otherwise; a walk of [j] steps takes (and drops) the shared
    locks of the first [j] nodes from [result] on. *)
Lemma lookup_loop_walk : ∀ rest fuel n prev result s,
  heap s = share prev hp0 → is_Some (hp0 !! prev) →
  chain hp0 result rest →
  (uint_decr n < N.of_nat fuel)%N →
  Forall (can_share hp0) (take (N.to_nat (uint_decr n)) (result :: rest)) →
  ∃ t, lookup_loop fuel n (guard prev) result s =
    match (result :: rest) !! N.to_nat (uint_decr n),
          (prev :: result :: rest) !! N.to_nat (uint_decr n) with
    | Some result', Some prev' =>
        (Ret (result', guard prev'), with_heap (share prev' hp0) s, t)
    | _, _ => (Throw IndexOutOfRange, with_heap hp0 s, t)
    end.
Proof.
  induction rest as [|q rest IH]; intros fuel n prev result s Hs Hprev Hc Hfuel Hshare;
    (destruct fuel as [|fuel]; [lia|]); simpl lookup_loop;
    pose proof (uint_decr_lt n) as Hlt;
    destruct (N.eqb_spec (uint_decr n) 0) as [Hz|Hnz].
  - rewrite Hz. simpl. exists []. by rewrite <- Hs, with_heap_id.
  - destruct (N.to_nat (uint_decr n)) as [|j] eqn:Hj; [lia|].
    simpl in Hshare. apply Forall_cons in Hshare as [Hres _].
    destruct Hc as [Hnx Hsome].
    unfold bind at 1. rewrite shared_lock_ctor_ok by (rewrite Hs; by apply can_share_share).
    rewrite Hs. unfold swap, bind at 1.
    rewrite read_next_ok by (cbn [heap with_heap]; by rewrite !lookup_share_is_Some).
    cbn [heap with_heap]. rewrite !next_of_share, Hnx.
    change (shared_lock_dtor (guard ?p)) with (unlock_shared p).
    unfold throw, bind at 1. rewrite unlock_prev_after_share by done.
    rewrite unlock_after_share by done. cbn [lookup list_lookup]. eauto.
  - rewrite Hz. simpl. exists []. by rewrite <- Hs, with_heap_id.
  - destruct (N.to_nat (uint_decr n)) as [|j] eqn:Hj; [lia|].
    simpl in Hshare. apply Forall_cons in Hshare as [Hres Hshare].
    destruct Hc as [Hnx Hc].
    assert (is_Some (hp0 !! result)) as Hsome.
    { apply next_of_Some_lookup in Hnx as (? & ? & ?). eauto. }
    unfold bind at 1. rewrite shared_lock_ctor_ok by (rewrite Hs; by apply can_share_share).
    rewrite Hs. unfold swap, bind at 1.
    rewrite read_next_ok by (cbn [heap with_heap]; by rewrite !lookup_share_is_Some).
    cbn [heap with_heap]. rewrite !next_of_share, Hnx.
    change (shared_lock_dtor (guard ?p)) with (unlock_shared p).
    unfold bind at 1. rewrite unlock_prev_after_share by done.
    assert (uint_decr (uint_decr n) = (uint_decr n - 1)%N) as Hdd
      by (apply uint_decr_pos; lia).
    destruct (IH fuel (uint_decr n) result q (with_heap (share result hp0) s))
      as [t Ht]; [done|done|done|lia| |].
    { rewrite Hdd. by replace (N.to_nat (uint_decr n - 1)) with j by lia. }
    rewrite Ht, Hdd. replace (N.to_nat (uint_decr n - 1)) with j by lia.
    change ((result :: q :: rest) !! S j) with ((q :: rest) !! j).
    change ((prev :: result :: q :: rest) !! S j) with ((result :: q :: rest) !! j).
    destruct ((q :: rest) !! j); [destruct ((result :: q :: rest) !! j)|]; eauto.
Qed.

End walk.

Lemma lookup_prefix_run s l first n lock_ :
  list_ s = Some l → can_share (heap s) l → next_of (heap s) l = Some first →
  (n ≠ 0)%N → owns lock_ = false →
  lookup n lock_ s =
    (let '(r, s2, t2) :=
       ('(result, read_lock) ← lookup_loop (N.to_nat n) n (guard l) first;
        result_lock ← unique_lock_ctor result;
        let '(lock_, result_lock) := swap lock_ result_lock in
        unique_lock_dtor result_lock;;
        shared_lock_dtor read_lock;;
        ret (result, lock_)) (with_heap (share l (heap s)) s)
     in (r, s2, EvAcquire Shared l :: EvReadNext l :: t2)).
Proof.
  intros Hl Hshare Hnx Hn Hown. unfold lookup, bind at 1.
  rewrite get_list_run, Hl. unfold bind at 1.
  rewrite shared_lock_ctor_ok by done. unfold bind at 1.
  rewrite read_next_ok by (cbn [heap with_heap]; rewrite lookup_share_is_Some;
                           destruct Hshare as (? & ? & ?); eauto).
  cbn [heap with_heap]. rewrite next_of_share, Hnx.
  apply N.eqb_neq in Hn. unfold owns_lock. rewrite Hn, Hown. cbn [orb].
  by destruct (bind _ _ _) as [[r s2] t2].
Qed.

(** A call for a node that is there and whose lock is free, along a way
    on which no lock is held exclusively. *)
Lemma lookup_found s l ps n lock_ target :
  list_ s = Some l → chain (heap s) l ps →
  (0 < n < UINT_MOD)%N → owns lock_ = false →
  ps !! (N.to_nat n - 1) = Some target →
  Forall (can_share (heap s)) (take (N.to_nat n) (l :: ps)) →
  is_free (heap s) target →
  ∃ t, lookup n lock_ s =
    (Ret (target, guard target), with_heap (seize target (heap s)) s, t).
Proof.
  intros Hl Hc Hn Hown Htarget Hshare Hfree.
  destruct ps as [|first rest]; [done|]. destruct Hc as [Hnx Hc].
  destruct (N.to_nat n) as [|j] eqn:Hj; [lia|].
  simpl in Hshare. apply Forall_cons in Hshare as [Hsl Hshare].
  rewrite (lookup_prefix_run s l first) by (done || lia). rewrite Hj.
  assert (is_Some (heap s !! l)) as Hsome by (destruct Hsl as (? & ? & ?); eauto).
  pose proof (uint_decr_pos n Hn) as Hd.
  assert (N.to_nat (uint_decr n) = j) as Hdj by lia.
  unfold bind at 1.
  destruct (lookup_loop_walk (heap s) rest (S j) n l first
              (with_heap (share l (heap s)) s)) as [t1 Ht1];
    [done|done|done|lia|by rewrite Hdj|].
  rewrite Ht1, Hdj. simpl in Htarget. rewrite Nat.sub_0_r in Htarget.
  rewrite Htarget.
  destruct ((l :: first :: rest) !! j) as [prev'|] eqn:Hprev.
  2:{ apply lookup_ge_None in Hprev. apply lookup_lt_Some in Htarget.
      simpl in *. lia. }
  assert (target ≠ prev') as Hne.
  { intros <-. eapply (chain_lookup _ (first :: rest) l j) in Hprev; [|by split].
    erewrite drop_S in Hprev by done. by apply chain_no_self_loop in Hprev. }
  assert (is_Some (heap s !! prev')) as Hsp.
  { eapply (chain_lookup _ (first :: rest) l j) in Hprev; [|by split].
    by apply chain_is_Some in Hprev. }
  destruct Hfree as (nd & Hnd & Hm).
  unfold bind at 1. rewrite unique_lock_ctor_run. cbn [heap with_heap].
  unfold share at 1. rewrite list_lookup_alter_ne by done. rewrite Hnd, Hm.
  cbn [writer readers orb negb Nat.eqb].
  unfold swap, unique_lock_dtor. rewrite Hown. unfold bind, ret.
  change (shared_lock_dtor (guard ?p)) with (unlock_shared p).
  rewrite unlock_prev_after_seize by done. eauto.
Qed.

(** A call for an index beyond the end of the chain. *)
Lemma lookup_short s l ps n lock_ :
  list_ s = Some l → chain (heap s) l ps → ps ≠ [] →
  (N.of_nat (length ps) < n < UINT_MOD)%N → owns lock_ = false →
  Forall (can_share (heap s)) (l :: ps) →
  ∃ t, lookup n lock_ s = (Throw IndexOutOfRange, s, t).
Proof.
  intros Hl Hc Hne Hn Hown Hshare.
  destruct ps as [|first rest]; [done|]. destruct Hc as [Hnx Hc].
  apply Forall_cons in Hshare as [Hsl Hshare].
  rewrite (lookup_prefix_run s l first) by (done || lia).
  assert (is_Some (heap s !! l)) as Hsome by (destruct Hsl as (? & ? & ?); eauto).
  assert (uint_decr n = (n - 1)%N) as Hd by (apply uint_decr_pos; lia).
  unfold bind at 1.
  destruct (lookup_loop_walk (heap s) rest (N.to_nat n) n l first
              (with_heap (share l (heap s)) s)) as [t1 Ht1];
    [done|done|done|lia| |].
  { rewrite take_ge; [done|]. simpl in *. lia. }
  rewrite Ht1. rewrite (proj2 (lookup_ge_None (first :: rest) _));
    [|simpl in *; lia].
  rewrite with_heap_with_heap, with_heap_id. eauto.
Qed.

(** ** What a call that returns has done, whatever locks are held *)

Lemma nth_next_chain hp : ∀ ps l k,
  chain hp l ps → nth_next hp (S k) l = ps !! k.
Proof.
  induction ps as [|q ps IH]; intros l k Hc.
  - destruct Hc as [Hnx _]. simpl. by rewrite Hnx.
  - destruct Hc as [Hnx Hc]. simpl. rewrite Hnx.
    destruct k as [|k]; [done|]. by apply IH.
Qed.

Lemma chain_not_in hp l ps : chain hp l ps → l ∉ ps.
Proof.
  intros Hc [i Hi]%list_elem_of_lookup.
  pose proof (chain_lookup hp ps l (S i) l Hc Hi) as Hc'.
  pose proof (chain_functional hp _ _ _ Hc Hc') as Heq.
  apply (f_equal length) in Heq. rewrite length_drop in Heq.
  apply lookup_lt_Some in Hi. lia.
Qed.

(** A call that returns, returns the [n]-th node after the sentinel. *)
Lemma lookup_result_position n h s p h' s' t :
  (n < UINT_MOD)%N → lookup n h s = (Ret (p, h'), s', t) →
  ∃ l, list_ s = Some l ∧ nth_next (heap s) (N.to_nat n) l = Some p.
Proof.
  intros Hn Hrun.
  apply lookup_inv in Hrun
    as (_ & Hn0 & _ & _ & _ & _ & _ & _ & l & Hl & Hnth).
  exists l. split; [done|]. rewrite uint_decr_pos in Hnth by lia.
  by replace (S (N.to_nat (n - 1))) with (N.to_nat n) in Hnth by lia.
Qed.

(** No call takes the lock of the sentinel exclusively: when a call has
    returned or failed, the lock of the sentinel can be shared as it
    could before. *)
Lemma lookup_keeps_sentinel_shareable n h s l ps r s' t :
  list_ s = Some l → chain (heap s) l ps → (n < UINT_MOD)%N →
  can_share (heap s) l → lookup n h s = (r, s', t) →
  match r with
  | Ret _ | Throw _ => can_share (heap s') l
  | _ => True
  end.
Proof.
  intros Hl Hc Hn Hsl Hrun. destruct r as [[p h']|e| | |]; try done.
  - destruct (lookup_result_position _ _ _ _ _ _ _ Hn Hrun) as (l' & Hl' & Hp).
    assert (l' = l) as -> by congruence.
    apply lookup_inv in Hrun as (_ & Hn0 & _ & _ & -> & _).
    destruct (N.to_nat n) as [|k] eqn:Hk; [lia|].
    rewrite (nth_next_chain _ ps) in Hp by done.
    assert (p ≠ l) as Hne.
    { intros ->. apply (chain_not_in _ _ _ Hc).
      by apply list_elem_of_lookup_2 in Hp. }
    destruct Hsl as (nd & Hnd & Hw). exists nd. split; [|done].
    cbn [heap with_heap]. unfold seize. by rewrite list_lookup_alter_ne.
  - by apply lookup_inv in Hrun as (_ & -> & _).
Qed.

(** ** The store that [list_add] builds *)

Lemma length_layout ws : length (layout ws) = length ws.
Proof. apply length_imap. Qed.

Lemma lookup_layout ws i :
  layout ws !! i = node_at (length ws) i <$> ws !! i.
Proof. apply list_lookup_imap. Qed.

Lemma next_of_layout ws i :
  next_of (layout ws) i = if decide (S i < length ws) then Some (S i) else None.
Proof.
  unfold next_of. rewrite lookup_layout.
  destruct (ws !! i) eqn:Hi; simpl; [done|].
  apply lookup_ge_None in Hi. case_decide; [lia|done].
Qed.

Lemma chain_layout ws : ∀ k j,
  S j + k = length ws → chain (layout ws) j (seq (S j) k).
Proof.
  induction k as [|k IH]; intros j Hj; simpl.
  - rewrite next_of_layout. case_decide; [lia|]. split; [done|].
    apply lookup_lt_is_Some. rewrite length_layout. lia.
  - rewrite next_of_layout. case_decide; [|lia]. split; [done|].
    apply IH. lia.
Qed.

Lemma is_free_layout ws p : p < length ws → is_free (layout ws) p.
Proof.
  intros Hp. apply lookup_lt_is_Some in Hp as [v Hv].
  exists (node_at (length ws) p v). by rewrite lookup_layout, Hv.
Qed.

Lemma new_list_run : new_list initial_state = (Ret tt, built_state [], []).
Proof. reflexivity. Qed.

(** The loop of [list_add] stops at the last node. *)
Lemma find_last_layout ws nd s : ∀ fuel p,
  heap s = layout ws ++ [nd] → p < length ws → length ws - p ≤ fuel →
  ∃ t, find_last fuel p s = (Ret (length ws - 1), s, t).
Proof.
  intros fuel p Hs. revert p.
  induction fuel as [|fuel IH]; intros p Hp Hfuel; [lia|]. simpl.
  unfold bind. rewrite read_next_ok
    by (rewrite Hs; apply lookup_lt_is_Some; rewrite length_app, length_layout; lia).
  assert (next_of (heap s) p = next_of (layout ws) p) as ->.
  { unfold next_of. by rewrite Hs, lookup_app_l by (rewrite length_layout; lia). }
  rewrite next_of_layout. case_decide.
  - destruct (IH (S p)) as [t Ht]; [lia..|]. rewrite Ht. eauto.
  - unfold ret. replace (length ws - 1) with p by lia. eauto.
Qed.

Lemma layout_snoc ws v :
  ws ≠ [] →
  <[length ws - 1 :=
      {| mutex := mutex (node_at (length ws) (length ws - 1) (default "" (last ws)));
         element := default "" (last ws);
         next := Some (length ws) |}]>
    (layout ws ++ [node_at (S (length ws)) (length ws) v]) =
  layout (ws ++ [v]).
Proof.
  intros Hne. assert (0 < length ws) by (destruct ws; simpl; [done|apply Nat.lt_0_succ]).
  apply list_eq. intros i.
  rewrite list_lookup_insert, lookup_layout, length_app, length_layout.
  rewrite !lookup_app, lookup_layout. simpl.
  rewrite Nat.add_1_r.
  case_decide as Hi.
  - destruct Hi as [<- _]. rewrite last_lookup.
    rewrite <- Nat.sub_1_r.
    destruct (ws !! (length ws - 1)) as [w|] eqn:Hw; simpl.
    + unfold node_at. rewrite length_app. simpl. f_equal. f_equal.
      case_decide; [|lia]. f_equal. lia.
    + apply lookup_ge_None in Hw. lia.
  - destruct (ws !! i) as [w|] eqn:Hw; simpl.
    + apply lookup_lt_Some in Hw as Hlt. unfold node_at. rewrite length_app.
      simpl. do 2 f_equal. repeat case_decide; try done; lia.
    + apply lookup_ge_None in Hw.
      rewrite length_layout.
      destruct (i - length ws) as [|d] eqn:Hd; simpl; [|done].
      replace i with (length ws) by lia. by rewrite length_app, Nat.add_1_r.
Qed.

Lemma new_node_run v s :
  new_node v s =
    (Ret (length (heap s)),
     {| heap := heap s ++ [ {| mutex := {| m := free_mutex; serial_num := number s |};
                               element := v; next := None |} ];
        list_ := list_ s;
        number := uint_incr (number s) |},
     []).
Proof. done. Qed.

Lemma write_next_run p q s nd :
  heap s !! p = Some nd →
  write_next p q s =
    (Ret tt,
     with_heap (<[p := {| mutex := mutex nd; element := element nd; next := q |}]> (heap s)) s,
     []).
Proof. intros Hp. unfold write_next. by rewrite Hp. Qed.

Lemma uint_incr_of_nat k :
  uint_incr (N.of_nat k mod UINT_MOD) = (N.of_nat (S k) mod UINT_MOD)%N.
Proof.
  unfold uint_incr. rewrite N.Div0.add_mod_idemp_l. f_equal. lia.
Qed.

Lemma list_add_run v vs :
  ∃ t, list_add v (built_state vs) = (Ret tt, built_state (vs ++ [v]), t).
Proof.
  set (ws := "" :: vs).
  assert (ws ≠ []) as Hne by done.
  assert (length ws = S (length vs)) as Hlen by done.
  unfold list_add, bind at 1. rewrite new_node_run.
  cbn [heap list_ number built_state]. fold ws.
  rewrite length_layout, uint_incr_of_nat.
  set (nd := {| mutex := _; element := v; next := None |}).
  assert (nd = node_at (S (length ws)) (length ws) v) as Hnd.
  { unfold nd, node_at. rewrite Hlen. do 2 f_equal. case_decide; [lia|done]. }
  set (s1 := {| heap := layout ws ++ [nd] |}).
  unfold bind at 1. rewrite get_list_run. cbn [list_ s1].
  unfold bind at 1. cbn [heap s1]. unfold bind at 1.
  destruct (find_last_layout ws nd s1 (length (layout ws ++ [nd])) 0) as [t Ht];
    [done|lia|rewrite length_app, length_layout; lia|].
  rewrite Ht.
  assert (heap s1 !! (length ws - 1)
          = Some (node_at (length ws) (length ws - 1) (default "" (last ws)))) as Hlast.
  { cbn [heap s1]. rewrite lookup_app_l by (rewrite length_layout; lia).
    rewrite lookup_layout, last_lookup, <- Nat.sub_1_r.
    destruct (ws !! (length ws - 1)) eqn:Hw; [done|].
    apply lookup_ge_None in Hw. lia. }
  rewrite (write_next_run _ _ _ _ Hlast). cbn [heap s1 element node_at].
  rewrite Hnd, layout_snoc by done.
  eexists. unfold with_heap, built_state. cbn [list_ number s1].
  rewrite length_app, Nat.add_1_r. reflexivity.
Qed.

Lemma add_all_run : ∀ vs ws,
  ∃ t, add_all vs (built_state ws) = (Ret tt, built_state (ws ++ vs), t).
Proof.
  induction vs as [|v vs IH]; intros ws; simpl.
  - exists []. by rewrite app_nil_r.
  - unfold bind. destruct (list_add_run v ws) as [t1 ->].
    destruct (IH (ws ++ [v])) as [t2 ->]. rewrite <- app_assoc. eauto.
Qed.

Lemma build_run vs : ∃ t, build vs initial_state = (Ret tt, built_state vs, t).
Proof.
  unfold build, bind. rewrite new_list_run.
  destruct (add_all_run vs []) as [t ->]. eauto.
Qed.

Lemma final_build vs : final (build vs initial_state) = built_state vs.
Proof. by destruct (build_run vs) as [t ->]. Qed.

Lemma main_state_built : main_state = built_state (words "" contents).
Proof. apply (final_build (words "" contents)). Qed.

(** ** The loop budget is never exhausted *)

Lemma fuel_free_ret {A} (a : A) : fuel_free (ret a).
Proof. by intros s. Qed.

Lemma fuel_free_fault {A} : fuel_free (@fault A).
Proof. by intros s. Qed.

Lemma fuel_free_bind {A B} (c : M A) (k : A → M B) :
  fuel_free c → (∀ a, fuel_free (k a)) → fuel_free (bind c k).
Proof.
  intros Hc Hk s. specialize (Hc s). unfold bind, outcome in *.
  destruct (c s) as [[[a| | | |] s1] t1]; simpl in *; try done.
  specialize (Hk a s1). unfold outcome in Hk.
  by destruct (k a s1) as [[r s2] t2].
Qed.

Lemma fuel_free_throw {A} e (c : M unit) : fuel_free c → fuel_free (@throw A e c).
Proof.
  intros Hc s. specialize (Hc s). unfold throw, outcome in *.
  by destruct (c s) as [[[a| | | |] s1] t1].
Qed.

Lemma fuel_free_acquire op md p : fuel_free (acquire op md p).
Proof.
  intros s. unfold acquire, outcome.
  destruct (heap s !! p); [|done]. by destruct (op _).
Qed.

Lemma fuel_free_release op md p : fuel_free (release op md p).
Proof.
  intros s. unfold release, outcome.
  destruct (heap s !! p); [|done]. by destruct (op _).
Qed.

Lemma fuel_free_read_next p : fuel_free (read_next p).
Proof. intros s. unfold read_next, outcome. by destruct (heap s !! p). Qed.

Lemma fuel_free_get_list : fuel_free get_list.
Proof. intros s. unfold get_list, outcome. by destruct (list_ s). Qed.

Lemma fuel_free_shared_lock_ctor p : fuel_free (shared_lock_ctor p).
Proof.
  apply fuel_free_bind; [apply fuel_free_acquire | intros; apply fuel_free_ret].
Qed.

Lemma fuel_free_unique_lock_ctor p : fuel_free (unique_lock_ctor p).
Proof.
  apply fuel_free_bind; [apply fuel_free_acquire | intros; apply fuel_free_ret].
Qed.

Lemma fuel_free_shared_lock_dtor l : fuel_free (shared_lock_dtor l).
Proof.
  unfold shared_lock_dtor. destruct (owns l); [|apply fuel_free_ret].
  destruct (pm l); [apply fuel_free_release | apply fuel_free_fault].
Qed.

Lemma fuel_free_unique_lock_dtor l : fuel_free (unique_lock_dtor l).
Proof.
  unfold unique_lock_dtor. destruct (owns l); [|apply fuel_free_ret].
  destruct (pm l); [apply fuel_free_release | apply fuel_free_fault].
Qed.

Create HintDb fuel.
#[local] Hint Resolve fuel_free_ret fuel_free_fault fuel_free_throw
  fuel_free_read_next fuel_free_get_list fuel_free_shared_lock_ctor
  fuel_free_unique_lock_ctor fuel_free_shared_lock_dtor
  fuel_free_unique_lock_dtor : fuel.

Lemma fuel_free_lookup_loop : ∀ fuel n read_lock result,
  (uint_decr n < N.of_nat fuel)%N →
  fuel_free (lookup_loop fuel n read_lock result).
Proof.
  induction fuel as [|fuel IH]; intros n read_lock result Hfuel; [lia|].
  simpl. pose proof (uint_decr_lt n).
  destruct (N.eqb_spec (uint_decr n) 0); [auto with fuel|].
  apply fuel_free_bind; [auto with fuel|]. intros next_lock.
  apply fuel_free_bind; [auto with fuel|]. intros [q|].
  - apply fuel_free_bind; [auto with fuel|]. intros _. apply IH.
    rewrite uint_decr_pos; lia.
  - apply fuel_free_throw, fuel_free_bind; auto with fuel.
Qed.

(** [N.to_nat n] iterations are enough for [while (--n)] once [n] is
    known not to be zero: [lookup] always comes to an end. *)
Lemma fuel_free_lookup n lock_ : fuel_free (lookup n lock_).
Proof.
  unfold lookup.
  apply fuel_free_bind; [auto with fuel|]. intros l.
  apply fuel_free_bind; [auto with fuel|]. intros read_lock.
  apply fuel_free_bind; [auto with fuel|]. intros [result|]; [|auto with fuel].
  destruct (N.eqb_spec n 0); cbn [orb]; [auto with fuel|].
  destruct (owns_lock lock_); [auto with fuel|].
  apply fuel_free_bind.
  { apply fuel_free_lookup_loop. pose proof (uint_decr_le n). lia. }
  intros [r rl].
  apply fuel_free_bind; [auto with fuel|]. intros result_lock. simpl.
  repeat (apply fuel_free_bind; [auto with fuel|]; intros).
  auto with fuel.
Qed.

Lemma built_state_chain vs :
  chain (heap (built_state vs)) 0 (seq 1 (length vs)).
Proof. apply (chain_layout ("" :: vs)). done. Qed.

Lemma built_state_free vs :
  Forall (is_free (heap (built_state vs))) (0 :: seq 1 (length vs)).
Proof.
  change (0 :: seq 1 (length vs)) with (seq 0 (S (length vs))).
  apply Forall_forall. intros p [_ Hp]%elem_of_seq.
  apply (is_free_layout ("" :: vs)). simpl. lia.
Qed.

Lemma seize_lookup hp p nd :
  hp !! p = Some nd → m (mutex nd) = free_mutex →
  ∃ nd', seize p hp !! p = Some nd' ∧
         m (mutex nd') = {| readers := 0; writer := true |} ∧
         strip nd' = strip nd.
Proof.
  intros Hp Hm. exists (excl_node nd). unfold seize.
  rewrite list_lookup_alter_eq, Hp. split; [done|].
  unfold excl_node. by rewrite Hm.
Qed.

(** C1. For a chain built by appending the payloads [vs] in order, and
    [1 <= i <= length vs], [lookup i h] with a handle [h] that holds no
    lock returns the pointer to the node whose payload is the [i]-th
    payload, [h] becomes the handle that owns this node's lock, the lock
    is held exclusively in the final store (and nothing else has
    changed), and the call holds nothing else on return.  For the nine
    words of [populate_list], the sixth node is "over". *)
Theorem lookup_returns_nth_node (vs : list string) (i : N) (h : unique_lock) :
  (1 ≤ i)%N → N.to_nat i ≤ length vs → (i < UINT_MOD)%N →
  owns_lock h = false →
  ∃ p nd nd' t,
    lookup i h (final (build vs initial_state)) =
      (Ret (p, {| pm := Some p; owns := true |}),
       with_heap (seize p (heap (final (build vs initial_state))))
         (final (build vs initial_state)),
       t) ∧
    heap (final (build vs initial_state)) !! p = Some nd ∧
    vs !! (N.to_nat i - 1) = Some (element nd) ∧
    seize p (heap (final (build vs initial_state))) !! p = Some nd' ∧
    m (mutex nd') = {| readers := 0; writer := true |} ∧
    element nd' = element nd ∧
    held_after t = [(Exclusive, p)] ∧
    (vs = words "" contents → i = 6%N → element nd = "over").
Proof.
  intros Hi1 Hik Hi Hown. rewrite final_build.
  remember (N.to_nat i) as p eqn:Hpi.
  assert (seq 1 (length vs) !! (p - 1) = Some p) as Hp.
  { apply lookup_seq. lia. }
  pose proof (built_state_free vs) as Hfree.
  assert (is_free (heap (built_state vs)) p) as Hfp.
  { eapply Forall_forall; [exact Hfree|]. right.
    by apply list_elem_of_lookup_2 in Hp. }
  destruct (lookup_found (built_state vs) 0 (seq 1 (length vs)) i h p)
    as [t Ht]; [done|apply built_state_chain|lia|done|by subst p| |done|].
  { apply Forall_take. eapply Forall_impl; [exact Hfree|].
    apply is_free_can_share. }
  destruct Hfp as (nd & Hnd & Hm).
  destruct (seize_lookup _ _ _ Hnd Hm) as (nd' & Hnd' & Hm' & Hstrip).
  pose proof (lookup_inv _ _ _ _ _ _ Ht) as (_ & _ & _ & _ & _ & _ & Hheld & _).
  assert (vs !! (p - 1) = Some (element nd)) as Hv.
  { change (heap (built_state vs)) with (layout ("" :: vs)) in Hnd.
    rewrite lookup_layout in Hnd.
    destruct p as [|p']; [lia|]. simpl in *.
    rewrite Nat.sub_0_r. destruct (vs !! p'); by simplify_eq/=. }
  exists p, nd, nd', t. split_and!; try done.
  - unfold strip in Hstrip. congruence.
  - intros -> ->. subst p. vm_compute in Hv. injection Hv as Hv.
    symmetry. exact Hv.
Qed.

Lemma lookup_returns_nth_node_witness :
  ∃ p nd nd' t,
    lookup 6 no_lock (final (build (words "" contents) initial_state)) =
      (Ret (p, {| pm := Some p; owns := true |}),
       with_heap (seize p (heap (final (build (words "" contents) initial_state))))
         (final (build (words "" contents) initial_state)),
       t) ∧
    heap (final (build (words "" contents) initial_state)) !! p = Some nd ∧
    seize p (heap (final (build (words "" contents) initial_state))) !! p = Some nd' ∧
    m (mutex nd') = {| readers := 0; writer := true |} ∧
    held_after t = [(Exclusive, p)] ∧
    element nd = "over".
Proof.
  destruct (lookup_returns_nth_node (words "" contents) 6 no_lock)
    as (p & nd & nd' & t & Hrun & Hnd & _ & Hnd' & Hm & _ & Hheld & Hover);
    [lia | vm_compute; lia | reflexivity | reflexivity |].
  exists p, nd, nd', t. repeat split; try assumption.
  apply Hover; reflexivity.
Defined.

Lemma held_after_early_trace l : held_after (early_trace l) = [].
Proof. unfold held_after, early_trace. simpl. by rewrite decide_True. Qed.

Lemma lookup_checks_run s l n h :
  list_ s = Some l → can_share (heap s) l →
  match next_of (heap s) l with
  | None => lookup n h s = (Throw EmptyChain, s, early_trace l)
  | Some _ =>
      (n =? 0)%N || owns_lock h = true →
      lookup n h s = (Throw InvalidIndex, s, early_trace l)
  end.
Proof.
  intros Hl Hshare.
  assert (is_Some (heap s !! l)) as Hsome by (destruct Hshare as (? & ? & ?); eauto).
  assert (∀ A e, @throw A e (shared_lock_dtor (guard l))
                   (with_heap (share l (heap s)) s)
                 = (Throw e, s, [EvThrow; EvRelease Shared l])) as Hthrow.
  { intros A e. unfold throw.
    change (shared_lock_dtor (guard ?p)) with (unlock_shared p).
    by rewrite unlock_after_share, with_heap_id. }
  assert (lookup n h s =
          match next_of (heap s) l with
          | None => (Throw EmptyChain, s, early_trace l)
          | Some _ =>
              if (n =? 0)%N || owns_lock h
              then (Throw InvalidIndex, s, early_trace l)
              else lookup n h s
          end) as Hrun.
  { unfold lookup at 1, bind at 1. rewrite get_list_run, Hl. unfold bind at 1.
    rewrite shared_lock_ctor_ok by done. unfold bind at 1.
    rewrite read_next_ok by (cbn [heap with_heap]; by rewrite lookup_share_is_Some).
    cbn [heap with_heap]. rewrite next_of_share.
    destruct (next_of (heap s) l) as [first|] eqn:Hnx; [|by rewrite Hthrow].
    destruct (_ || _) eqn:Hargs; [by rewrite Hthrow|].
    rewrite (lookup_prefix_run s l first); try done.
    - by destruct (bind _ _ _) as [[r s2] t2].
    - apply orb_false_elim in Hargs as [Hn _]. by apply N.eqb_neq in Hn.
    - by apply orb_false_elim in Hargs as [_ ?]. }
  destruct (next_of (heap s) l) as [first|]; [|done].
  intros Hargs. by rewrite Hargs in Hrun.
Qed.

(** C4. For a chain of [length ps >= 1] nodes behind the sentinel and a
    handle that holds no lock: [lookup 0] fails with [InvalidIndex];
    [lookup (length ps + 1)] fails with [IndexOutOfRange], the walk having
    reached the end of the chain (it has read a null [next]); after
    either failure the store is the one before the call and the call
    holds no lock.  The call is taken
    not to be kept waiting (no lock on its way is held exclusively), and
    [length ps + 1] to be an [unsigned int]. *)
Theorem lookup_bounds (s : state) (l : ptr) (ps : list ptr) (h : unique_lock) :
  list_ s = Some l → chain (heap s) l ps → 1 ≤ length ps →
  owns_lock h = false →
  Forall (can_share (heap s)) (l :: ps) →
  (N.of_nat (length ps) + 1 < UINT_MOD)%N →
  (lookup 0 h s = (Throw InvalidIndex, s, early_trace l) ∧
   held_after (early_trace l) = []) ∧
  (∃ t, lookup (N.of_nat (length ps) + 1) h s = (Throw IndexOutOfRange, s, t) ∧
        held_after t = [] ∧
        ∃ p, next_of (heap s) p = None ∧ EvReadNext p ∈ t).
Proof.
  intros Hl Hc Hk Hown Hshare Hn.
  pose proof Hshare as [Hsl Hps]%Forall_cons. split.
  - split; [|apply held_after_early_trace].
    pose proof (lookup_checks_run s l 0 h Hl Hsl) as Hrun.
    destruct ps as [|first rest]; [simpl in Hk; lia|]. destruct Hc as [Hnx _].
    rewrite Hnx in Hrun. by apply Hrun.
  - destruct (lookup_short s l ps (N.of_nat (length ps) + 1) h) as [t Ht];
      [done|done|intros ->; simpl in Hk; lia|lia|done|done|].
    exists t. split; [done|].
    pose proof (lookup_inv _ _ _ _ _ _ Ht)
      as (_ & _ & Hheld & l' & _ & [[? _]|[[? _]|(_ & _ & _ & _ & Hend)]]);
      done.
Qed.

Lemma lookup_bounds_witness :
  (lookup 0 no_lock main_state = (Throw InvalidIndex, main_state, early_trace 0) ∧
   held_after (early_trace 0) = []) ∧
  (∃ t, lookup (N.of_nat (length (seq 1 9)) + 1) no_lock main_state =
          (Throw IndexOutOfRange, main_state, t) ∧
        held_after t = [] ∧
        ∃ p, next_of (heap main_state) p = None ∧ EvReadNext p ∈ t).
Proof.
  apply (lookup_bounds main_state 0 (seq 1 9) no_lock).
  - reflexivity.
  - vm_compute. repeat split; eauto.
  - vm_compute. lia.
  - reflexivity.
  - vm_compute. repeat constructor; eexists; split; reflexivity.
  - vm_compute. reflexivity.
Defined.



(** C7. On a chain with no real element (the sentinel's [next] is
    null), [lookup] fails with [EmptyChain] for every [n] and every
    handle. *)
Theorem lookup_empty_chain (s : state) (l : ptr) (n : N) (h : unique_lock) :
  list_ s = Some l → chain (heap s) l [] → can_share (heap s) l →
  lookup n h s = (Throw EmptyChain, s, early_trace l).
Proof.
  intros Hl [Hnx _] Hsl.
  pose proof (lookup_checks_run s l n h Hl Hsl) as Hrun.
  by rewrite Hnx in Hrun.
Qed.

Lemma lookup_empty_chain_witness :
  lookup 1 no_lock (final (build [] initial_state)) =
    (Throw EmptyChain, final (build [] initial_state), early_trace 0).
Proof.
  apply (lookup_empty_chain (final (build [] initial_state)) 0 1 no_lock).
  - reflexivity.
  - vm_compute. eauto.
  - eexists. split; reflexivity.
Defined.

(** C10. The test for the empty chain comes before the tests of the
    arguments: on a chain with no real element [lookup] never fails
    with [InvalidIndex], and it fails with [EmptyChain] also when [n] is
    0 or the handle already owns a lock. *)
Theorem empty_chain_checked_first (s : state) (l : ptr) (n : N)
    (h : unique_lock) (held_mutex : option ptr) :
  list_ s = Some l → chain (heap s) l [] → can_share (heap s) l →
  outcome (lookup n h s) = Throw EmptyChain ∧
  outcome (lookup 0 h s) = Throw EmptyChain ∧
  outcome (lookup n {| pm := held_mutex; owns := true |} s) = Throw EmptyChain ∧
  outcome (lookup 0 {| pm := held_mutex; owns := true |} s) = Throw EmptyChain ∧
  outcome (lookup n h s) ≠ Throw InvalidIndex.
Proof.
  intros Hl [Hnx _] Hsl.
  assert (∀ n' h', outcome (lookup n' h' s) = Throw EmptyChain) as Hall.
  { intros n' h'. pose proof (lookup_checks_run s l n' h' Hl Hsl) as Hrun.
    rewrite Hnx in Hrun. by rewrite Hrun. }
  split_and!; try apply Hall. by rewrite Hall.
Qed.

Lemma empty_chain_checked_first_witness :
  outcome (lookup 5 no_lock (final (build [] initial_state))) = Throw EmptyChain ∧
  outcome (lookup 0 no_lock (final (build [] initial_state))) = Throw EmptyChain ∧
  outcome (lookup 5 {| pm := Some 3; owns := true |} (final (build [] initial_state)))
    = Throw EmptyChain ∧
  outcome (lookup 0 {| pm := Some 3; owns := true |} (final (build [] initial_state)))
    = Throw EmptyChain ∧
  outcome (lookup 5 no_lock (final (build [] initial_state))) ≠ Throw InvalidIndex.
Proof.
  apply (empty_chain_checked_first (final (build [] initial_state)) 0 5 no_lock (Some 3)).
  - reflexivity.
  - vm_compute. eauto.
  - eexists. split; reflexivity.
Defined.

Lemma lookup_trace_head n h s r s' t :
  lookup n h s = (r, s', t) →
  t = [] ∨ ∃ l t', list_ s = Some l ∧ t = EvAcquire Shared l :: t'.
Proof.
  unfold lookup, bind at 1. rewrite get_list_run.
  destruct (list_ s) as [l|]; [|intros [= <- <- <-]; by left].
  unfold bind at 1. rewrite shared_lock_ctor_run.
  destruct (heap s !! l); [|intros [= <- <- <-]; by left].
  destruct (writer _); [intros [= <- <- <-]; by left|].
  destruct (bind _ _ _) as [[r2 s2] t2]. intros [= <- <- <-].
  right. exists l. simpl. eauto.
Qed.

Lemma lookup_always n h s :
  always (ok_event (heap s)) [] false (trace (lookup n h s)).
Proof.
  destruct (lookup n h s) as [[r s'] t] eqn:Hrun.
  by apply lookup_inv in Hrun as [? _].
Qed.

(** C2. In every call of [lookup], a [next] field is read only while
    the shared lock of that very node is held by the call (so the
    sentinel's [next] is read after the sentinel's shared lock has been
    taken); and a shared lock is released, outside of the unwinding
    after a throw, only while the lock of the successor node is held by
    the call as well: held shared during the walk, held exclusively when
    the last shared lock is dropped after the exclusive lock of the
    result has been taken. *)
Theorem lookup_lock_coupling (n : N) (h : unique_lock) (s : state)
    (pre : list event) (ev : event) (suf : list event) :
  trace (lookup n h s) = pre ++ ev :: suf →
  match ev with
  | EvReadNext p => (Shared, p) ∈ held_after pre ∧ EvAcquire Shared p ∈ pre
  | EvRelease md p =>
      (md, p) ∈ held_after pre ∧
      (thrown pre = true ∨
       md = Shared ∧
       ∃ q, next_of (heap s) p = Some q ∧
            ((Shared, q) ∈ held_after pre ∨
             (Exclusive, q) ∈ held_after pre ∧ EvAcquire Exclusive q ∈ pre))
  | EvAcquire _ _ | EvThrow => True
  end.
Proof.
  intros Ht. pose proof (lookup_always n h s) as Halw.
  eapply always_prefix in Halw as (_ & _ & Hev); [|exact Ht].
  destruct ev as [md p|md p|p|]; try done.
  - destruct Hev as [Hin Hrel]. split; [done|].
    cbn [orb] in Hrel. destruct (thrown pre); [by left|right].
    destruct Hrel as (-> & q & Hq & Hheld); [done|].
    split; [done|]. exists q. split; [done|].
    destruct Hheld as [?|Hx]; [by left|right]. split; [done|].
    apply elem_of_held_from in Hx as [Hx|Hx]; [|done].
    by apply elem_of_nil in Hx.
  - split; [done|].
    apply elem_of_held_from in Hev as [Hx|Hx]; [|done].
    by apply elem_of_nil in Hx.
Qed.

Lemma lookup_lock_coupling_witness :
  (Shared, 0) ∈ held_after [EvAcquire Shared 0; EvReadNext 0; EvAcquire Shared 1;
                             EvReadNext 1] ∧
  (thrown [EvAcquire Shared 0; EvReadNext 0; EvAcquire Shared 1; EvReadNext 1] = true ∨
   Shared = Shared ∧
   ∃ q, next_of (heap main_state) 0 = Some q ∧
        ((Shared, q) ∈ held_after [EvAcquire Shared 0; EvReadNext 0;
                                    EvAcquire Shared 1; EvReadNext 1] ∨
         (Exclusive, q) ∈ held_after [EvAcquire Shared 0; EvReadNext 0;
                                       EvAcquire Shared 1; EvReadNext 1] ∧
         EvAcquire Exclusive q ∈ [EvAcquire Shared 0; EvReadNext 0;
                                  EvAcquire Shared 1; EvReadNext 1])).
Proof.
  apply (lookup_lock_coupling 3 no_lock main_state
           [EvAcquire Shared 0; EvReadNext 0; EvAcquire Shared 1; EvReadNext 1]
           (EvRelease Shared 0)
           [EvAcquire Shared 2; EvReadNext 2; EvRelease Shared 1;
            EvAcquire Exclusive 3; EvRelease Shared 2]).
  vm_compute. reflexivity.
Defined.

(** C3. At every point of a call of [lookup] the call holds at most two
    locks; and from its first event on, which is the acquisition of the
    sentinel's shared lock, it holds at least one until it returns or
    throws. *)
Theorem lookup_holds_one_or_two (n : N) (h : unique_lock) (s : state)
    (pre : list event) (ev : event) (suf : list event) :
  trace (lookup n h s) = pre ++ ev :: suf →
  (∃ l, list_ s = Some l ∧ head (pre ++ [ev]) = Some (EvAcquire Shared l)) ∧
  length (held_after pre) ≤ 2 ∧
  length (held_after (pre ++ [ev])) ≤ 2 ∧
  (thrown (pre ++ [ev]) = true ∨ 1 ≤ length (held_after (pre ++ [ev]))).
Proof.
  intros Ht. pose proof (lookup_always n h s) as Halw.
  assert (∀ pre' ev' suf', trace (lookup n h s) = pre' ++ ev' :: suf' →
            length (held_after (pre' ++ [ev'])) ≤ 2 ∧
            (thrown (pre' ++ [ev']) = true ∨
             1 ≤ length (held_after (pre' ++ [ev'])))) as Hafter.
  { intros pre' ev' suf' Ht'.
    eapply always_prefix in Halw as (Hle & Hge & _); [|exact Ht'].
    unfold held_after. rewrite held_from_app, thrown_app. cbn [orb] in Hge.
    simpl. rewrite orb_false_r. split; [done|].
    destruct (thrown pre' || is_throw ev'); [by left|right; by apply Hge]. }
  split_and!.
  - destruct (lookup n h s) as [[r s'] t] eqn:Hrun. simpl in Ht.
    destruct (lookup_trace_head _ _ _ _ _ _ Hrun) as [Hnil|(l & t' & Hl & Hhd)].
    + subst t. by destruct pre.
    + exists l. split; [done|]. subst t.
      destruct pre as [|ev0 pre]; simpl in *; congruence.
  - destruct (decide (pre = [])) as [->|Hne]; [simpl; lia|].
    destruct (exists_last Hne) as (pre' & ev' & ->).
    apply (Hafter pre' ev' (ev :: suf)). rewrite Ht. by rewrite <- app_assoc.
  - by apply (Hafter pre ev suf).
  - by apply (Hafter pre ev suf).
Qed.

Lemma lookup_holds_one_or_two_witness :
  (∃ l, list_ main_state = Some l ∧
        head ([EvAcquire Shared 0; EvReadNext 0] ++ [EvAcquire Shared 1])
          = Some (EvAcquire Shared l)) ∧
  length (held_after [EvAcquire Shared 0; EvReadNext 0]) ≤ 2 ∧
  length (held_after ([EvAcquire Shared 0; EvReadNext 0] ++ [EvAcquire Shared 1])) ≤ 2 ∧
  (thrown ([EvAcquire Shared 0; EvReadNext 0] ++ [EvAcquire Shared 1]) = true ∨
   1 ≤ length (held_after ([EvAcquire Shared 0; EvReadNext 0] ++ [EvAcquire Shared 1]))).
Proof.
  apply (lookup_holds_one_or_two 3 no_lock main_state
           [EvAcquire Shared 0; EvReadNext 0] (EvAcquire Shared 1)
           [EvReadNext 1; EvRelease Shared 0; EvAcquire Shared 2; EvReadNext 2;
            EvRelease Shared 1; EvAcquire Exclusive 3; EvRelease Shared 2]).
  vm_compute. reflexivity.
Defined.

(** C6. Whenever [lookup] fails, the store after the call is the store
    before it, so every lock taken during the call has been released
    when the error reaches the caller, and the call holds no lock.  The
    failing paths are three: the empty chain, an invalid argument, and
    an index beyond the end of the chain. *)
Theorem lookup_failure_releases (n : N) (h : unique_lock) (s s' : state)
    (e : exn) (t : list event) :
  lookup n h s = (Throw e, s', t) →
  s' = s ∧ held_after t = [] ∧
  ∃ l, list_ s = Some l ∧
    (e = EmptyChain ∧ next_of (heap s) l = None ∨
     e = InvalidIndex ∧ is_Some (next_of (heap s) l) ∧
       (n = 0%N ∨ owns_lock h = true) ∨
     e = IndexOutOfRange ∧ is_Some (next_of (heap s) l) ∧
       n ≠ 0%N ∧ owns_lock h = false ∧
       ∃ p, next_of (heap s) p = None ∧ EvReadNext p ∈ t).
Proof. intros Hrun. by apply lookup_inv in Hrun as [_ ?]. Qed.

Lemma lookup_failure_releases_witness :
  main_state = main_state ∧ held_after (early_trace 0) = [] ∧
  ∃ l, list_ main_state = Some l ∧
    (InvalidIndex = EmptyChain ∧ next_of (heap main_state) l = None ∨
     InvalidIndex = InvalidIndex ∧ is_Some (next_of (heap main_state) l) ∧
       (0%N = 0%N ∨ owns_lock no_lock = true) ∨
     InvalidIndex = IndexOutOfRange ∧ is_Some (next_of (heap main_state) l) ∧
       0%N ≠ 0%N ∧ owns_lock no_lock = false ∧
       ∃ p, next_of (heap main_state) p = None ∧ EvReadNext p ∈ early_trace 0).
Proof.
  apply (lookup_failure_releases 0 no_lock main_state main_state InvalidIndex
           (early_trace 0)).
  vm_compute. reflexivity.
Defined.

Lemma structure_next_of s s' p :
  structure s' = structure s → next_of (heap s') p = next_of (heap s) p.
Proof.
  intros [= Hh _ _]. apply (f_equal (.!! p)) in Hh.
  rewrite !list_lookup_fmap in Hh. unfold next_of.
  destruct (heap s' !! p), (heap s !! p); by simplify_eq/=.
Qed.

Lemma structure_chain s s' : structure s' = structure s →
  ∀ ps p, chain (heap s') p ps ↔ chain (heap s) p ps.
Proof.
  intros Hst. induction ps as [|q ps IH]; intros p; simpl.
  - rewrite (structure_next_of s s') by done.
    assert (is_Some (heap s' !! p) ↔ is_Some (heap s !! p)) as ->; [|done].
    injection Hst as Hh _ _. apply (f_equal length) in Hh.
    rewrite !length_fmap in Hh. by rewrite !lookup_lt_is_Some, Hh.
  - by rewrite (structure_next_of s s'), IH.
Qed.

(** C8. No call of [lookup], whether it returns, throws or waits,
    changes the list: the nodes in the store, their order, payloads,
    [next] links and lock identities, the [list] pointer and the
    identity counter are the same after the call; the final store
    differs from the initial one in the states of locks only. *)
Theorem lookup_leaves_list_alone (n : N) (h : unique_lock) (s : state) :
  structure (final (lookup n h s)) = structure s ∧
  list_ (final (lookup n h s)) = list_ s ∧
  length (heap (final (lookup n h s))) = length (heap s) ∧
  (∀ p, element <$> heap (final (lookup n h s)) !! p = element <$> heap s !! p) ∧
  (∀ p, next <$> heap (final (lookup n h s)) !! p = next <$> heap s !! p) ∧
  (∀ p ps, chain (heap (final (lookup n h s))) p ps ↔ chain (heap s) p ps).
Proof.
  pose proof (preserves_lookup n h s) as Hst.
  split; [done|]. pose proof Hst as [= Hh Hl _].
  split; [done|]. split; [|split_and!].
  - apply (f_equal length) in Hh. by rewrite !length_fmap in Hh.
  - intros p. apply (f_equal (.!! p)) in Hh. rewrite !list_lookup_fmap in Hh.
    destruct (heap _ !! p), (heap s !! p); simplify_eq/=; [|done]. congruence.
  - intros p. apply (f_equal (.!! p)) in Hh. rewrite !list_lookup_fmap in Hh.
    destruct (heap _ !! p), (heap s !! p); simplify_eq/=; [|done]. congruence.
  - intros p ps. by apply structure_chain.
Qed.

(** ** Lock identities *)

Lemma number_after_constructions j :
  number (after_constructions j initial_state) = (j mod UINT_MOD)%N.
Proof.
  unfold after_constructions. induction j as [|j IH] using N.peano_ind; [done|].
  rewrite N.iter_succ.
  change (number (final (verbose_mutex_ctor ?s))) with (uint_incr (number s)).
  rewrite IH. unfold uint_incr. rewrite N.Div0.add_mod_idemp_l.
  f_equal. lia.
Qed.

Lemma nth_serial_eq j : nth_serial j = Some (j mod UINT_MOD)%N.
Proof.
  unfold nth_serial. cbn [outcome verbose_mutex_ctor fst serial_num].
  by rewrite number_after_constructions.
Qed.

(** C9, as the code has it. The identity of a lock is the value of the
    one static counter at its construction, which is then incremented as
    an [unsigned int]: the [j]-th lock constructed gets [j mod 2^32].
    Among the first [2^32] locks of a process the identities are
    pairwise distinct and increase in construction order. *)
Theorem serial_numbers_increase (i j : N) :
  (i < j)%N → (j < UINT_MOD)%N →
  nth_serial i = Some i ∧ nth_serial j = Some j ∧
  ∃ a b, nth_serial i = Some a ∧ nth_serial j = Some b ∧ (a < b)%N ∧ a ≠ b.
Proof.
  intros Hij Hj. rewrite !nth_serial_eq, !N.mod_small by lia.
  split_and!; [done..|]. exists i, j. split_and!; [done|done|done|lia].
Qed.

Lemma serial_numbers_increase_witness :
  nth_serial 3 = Some 3%N ∧ nth_serial 7 = Some 7%N ∧
  ∃ a b, nth_serial 3 = Some a ∧ nth_serial 7 = Some b ∧ (a < b)%N ∧ a ≠ b.
Proof.
  apply (serial_numbers_increase 3 7); [lia | reflexivity].
Defined.

(** C9 as stated fails once the counter has wrapped around: the lock
    constructed after [2^32] others gets the identity 0 of the first
    lock, which is smaller than the identity of its predecessor. *)
Lemma serial_numbers_wrap :
  nth_serial 0 = Some 0%N ∧
  nth_serial 4294967295 = Some 4294967295%N ∧
  nth_serial 4294967296 = Some 0%N ∧
  ¬ (∀ i j a b, (i < j)%N → nth_serial i = Some a → nth_serial j = Some b →
                (a < b)%N ∧ a ≠ b).
Proof.
  rewrite !nth_serial_eq. split_and!; [done..|].
  intros Hinc.
  destruct (Hinc 0%N 4294967296%N 0%N 0%N) as [Hlt _];
    [done|by rewrite nth_serial_eq..|]. lia.
Qed.

(** ** The run of [main] *)

(** The three calls of [main]: node 6, then node 4 while the lock of
    node 6 is still held, then, both locks dropped, node 9. *)
Example main_lookups :
  ∃ s1 t1 s2 t2 s3 t3,
    lookup 6 no_lock main_state = (Ret (6, guard 6), s1, t1) ∧
    element <$> heap s1 !! 6 = Some "over" ∧
    lookup 4 no_lock s1 = (Ret (4, guard 4), s2, t2) ∧
    element <$> heap s2 !! 4 = Some "fox" ∧
    (unique_lock_dtor (guard 4) ;; unique_lock_dtor (guard 6)) s2
      = (Ret tt, main_state, [EvRelease Exclusive 4; EvRelease Exclusive 6]) ∧
    lookup 9 no_lock main_state = (Ret (9, guard 9), s3, t3) ∧
    element <$> heap s3 !! 9 = Some "dog".
Proof. do 6 eexists. vm_compute. repeat split. Qed.

(** * More of the program *)

(** ** list_add on any chain *)

Lemma chain_NoDup hp : ∀ ps l, chain hp l ps → NoDup (l :: ps).
Proof.
  induction ps as [|q ps IH]; intros l Hc.
  - apply NoDup_singleton.
  - apply NoDup_cons. split; [by apply (chain_not_in hp)|].
    apply IH. by destruct Hc.
Qed.

Lemma chain_allocated hp : ∀ ps l,
  chain hp l ps → Forall (λ p, p < length hp) (l :: ps).
Proof.
  induction ps as [|q ps IH]; intros l Hc.
  - apply Forall_singleton. apply lookup_lt_is_Some. by destruct Hc.
  - apply Forall_cons. split.
    + apply lookup_lt_is_Some. by apply (chain_is_Some hp l (q :: ps)).
    + apply IH. by destruct Hc.
Qed.

(** A chain has no more nodes than the store. *)
Lemma chain_length hp l ps : chain hp l ps → S (length ps) ≤ length hp.
Proof.
  intros Hc. pose proof (chain_NoDup _ _ _ Hc) as Hnd.
  pose proof (chain_allocated _ _ _ Hc) as Hall.
  assert (length (l :: ps) ≤ length (seq 0 (length hp))) as Hle.
  { apply submseteq_length, NoDup_submseteq; [done|].
    intros p Hp. apply elem_of_seq. split; [lia|].
    rewrite Forall_forall in Hall. apply Hall in Hp. lia. }
  by rewrite length_seq in Hle.
Qed.

Lemma next_of_app hp ext p :
  is_Some (hp !! p) → next_of (hp ++ ext) p = next_of hp p.
Proof.
  intros Hp. unfold next_of.
  by rewrite lookup_app_l by (by apply lookup_lt_is_Some).
Qed.

Lemma chain_app hp ext : ∀ ps l, chain hp l ps → chain (hp ++ ext) l ps.
Proof.
  induction ps as [|q ps IH]; intros l Hc.
  - destruct Hc as [Hnx Hl]. split.
    + by rewrite next_of_app.
    + apply lookup_lt_is_Some. rewrite length_app.
      apply lookup_lt_is_Some in Hl. lia.
  - pose proof (chain_is_Some _ _ _ Hc) as Hl.
    destruct Hc as [Hnx Hc]. split; [by rewrite next_of_app|by apply IH].
Qed.

(** The loop of [list_add] on any chain: it stops at the last node. *)
Lemma find_last_chain s : ∀ ps fuel p,
  chain (heap s) p ps → length ps < fuel →
  ∃ t, find_last fuel p s = (Ret (default p (last ps)), s, t).
Proof.
  induction ps as [|q ps IH]; intros fuel p Hc Hfuel;
    (destruct fuel as [|fuel]; [lia|]); simpl find_last; unfold bind;
    rewrite read_next_ok by (by apply (chain_is_Some _ _ _ Hc)).
  - destruct Hc as [-> _]. unfold ret. simpl. eauto.
  - destruct Hc as [-> Hc].
    destruct (IH fuel q Hc) as [t ->]; [simpl in Hfuel; lia|].
    rewrite last_cons. destruct (last ps); simpl; eauto.
Qed.

Lemma last_elem_of (p : ptr) ps : default p (last ps) ∈ p :: ps.
Proof.
  destruct (last ps) as [q|] eqn:Hq; simpl; [|by left].
  right. rewrite last_lookup in Hq. by apply list_elem_of_lookup_2 in Hq.
Qed.

(** Linking a new last node behind a chain. *)
Lemma chain_snoc hp hp' new : ∀ ps l,
  chain hp l ps → NoDup (l :: ps) →
  (∀ p, p ∈ l :: ps → p ≠ default l (last ps) → next_of hp' p = next_of hp p) →
  next_of hp' (default l (last ps)) = Some new →
  chain hp' new [] →
  chain hp' l (ps ++ [new]).
Proof.
  induction ps as [|q ps IH]; intros l Hc Hnd Hsame Hlast Hnew.
  - simpl in *. done.
  - destruct Hc as [Hnx Hc]. apply NoDup_cons in Hnd as [Hl Hnd].
    assert (default l (last (q :: ps)) = default q (last ps)) as Hd.
    { rewrite last_cons. by destruct (last ps). }
    rewrite Hd in Hlast, Hsame. split.
    + rewrite Hsame; [done|by left|].
      intros Heq. apply Hl. rewrite Heq. apply last_elem_of.
    + apply IH; try done. intros p Hp Hne. apply Hsame; [by right|done].
Qed.

Lemma next_of_insert_ne (hp : list node) p q nd :
  p ≠ q → next_of (<[p := nd]> hp) q = next_of hp q.
Proof. intros Hne. unfold next_of. by rewrite list_lookup_insert_ne. Qed.

(** X1. [list_add] on any chain: the call returns, the new node is
    allocated at the end of the store with the payload, a null [next] and
    a free lock whose identity is the value of the counter, it is linked
    behind the last node of the chain, and the nodes that were there keep
    their payload and their lock. *)
Theorem list_add_appends (v : string) (s : state) (l : ptr) (ps : list ptr) :
  list_ s = Some l → chain (heap s) l ps →
  ∃ s' t,
    list_add v s = (Ret tt, s', t) ∧
    list_ s' = Some l ∧ number s' = uint_incr (number s) ∧
    length (heap s') = S (length (heap s)) ∧
    chain (heap s') l (ps ++ [length (heap s)]) ∧
    heap s' !! length (heap s) =
      Some {| mutex := {| m := free_mutex; serial_num := number s |};
              element := v; next := None |} ∧
    (∀ q nd, heap s !! q = Some nd →
       ∃ nd', heap s' !! q = Some nd' ∧ mutex nd' = mutex nd ∧
              element nd' = element nd).
Proof.
  intros Hl Hc.
  set (new := {| mutex := {| m := free_mutex; serial_num := number s |};
                 element := v; next := None |}).
  set (lst := default l (last ps)).
  pose proof (chain_length _ _ _ Hc) as Hlen.
  pose proof (chain_allocated _ _ _ Hc) as Hall.
  rewrite Forall_forall in Hall.
  assert (lst < length (heap s)) as Hlst by (apply Hall, last_elem_of).
  destruct (lookup_lt_is_Some_2 _ _ Hlst) as [ndl Hndl].
  unfold list_add, bind at 1. rewrite new_node_run. fold new.
  set (s1 := {| heap := heap s ++ [new] |}).
  unfold bind at 1. rewrite get_list_run. cbn [list_ s1]. rewrite Hl.
  unfold bind at 1, bind at 1.
  destruct (find_last_chain s1 ps (length (heap s1)) l) as [t Ht].
  { by apply chain_app. }
  { cbn [heap s1]. rewrite length_app. simpl. lia. }
  rewrite Ht. fold lst.
  assert (heap s1 !! lst = Some ndl) as Hndl1.
  { cbn [heap s1]. by rewrite lookup_app_l. }
  rewrite (write_next_run _ _ _ _ Hndl1). cbn [heap s1].
  eexists _, _. split; [reflexivity|]. cbn [with_heap heap list_ number s1].
  split_and!; try done.
  - by rewrite length_insert, length_app, Nat.add_1_r.
  - apply (chain_snoc (heap s)); try done.
    + by apply (chain_NoDup (heap s)).
    + intros p Hp Hne. rewrite next_of_insert_ne by done.
      apply next_of_app, lookup_lt_is_Some. by apply Hall.
    + unfold next_of. rewrite list_lookup_insert_eq; [done|].
      rewrite length_app. lia.
    + assert (<[lst := {| mutex := mutex ndl; element := element ndl;
                          next := Some (length (heap s)) |}]>
                (heap s ++ [new]) !! length (heap s) = Some new) as Hnew.
      { rewrite list_lookup_insert_ne by lia.
        by rewrite lookup_app_r, Nat.sub_diag by lia. }
      split; [unfold next_of; by rewrite Hnew|by rewrite Hnew].
  - rewrite list_lookup_insert_ne by lia.
    by rewrite lookup_app_r, Nat.sub_diag by lia.
  - intros q nd Hq. destruct (decide (lst = q)) as [<-|Hne].
    + rewrite list_lookup_insert_eq by (rewrite length_app; lia).
      eexists. split; [done|]. by simplify_eq/=.
    + rewrite list_lookup_insert_ne by done.
      exists nd. split; [|done].
      by rewrite lookup_app_l by (by apply lookup_lt_Some in Hq).
Qed.

Lemma list_add_appends_witness :
  ∃ s' t,
    list_add "again" main_state = (Ret tt, s', t) ∧
    list_ s' = Some 0 ∧ number s' = uint_incr (number main_state) ∧
    length (heap s') = S (length (heap main_state)) ∧
    chain (heap s') 0 (seq 1 9 ++ [length (heap main_state)]) ∧
    heap s' !! length (heap main_state) =
      Some {| mutex := {| m := free_mutex; serial_num := number main_state |};
              element := "again"; next := None |} ∧
    (∀ q nd, heap main_state !! q = Some nd →
       ∃ nd', heap s' !! q = Some nd' ∧ mutex nd' = mutex nd ∧
              element nd' = element nd).
Proof.
  apply (list_add_appends "again" main_state 0 (seq 1 9)).
  - reflexivity.
  - vm_compute. repeat split; eauto.
Defined.

(** ** The chain that [main] sets up *)

Lemma fmap_element_layout ws : element <$> layout ws = ws.
Proof.
  apply list_eq. intros i. rewrite list_lookup_fmap, lookup_layout.
  by destruct (ws !! i).
Qed.

(** X2. [list = new node("")] followed by one [list_add] per payload
    returns normally and leaves the sentinel at address 0 followed by one
    node per payload, in the order of the payloads, at the addresses
    1, 2, ...; every lock is free and the lock of the node at address [p]
    has identity [p mod 2^32]. *)
Theorem build_keeps_order (vs : list string) :
  ∃ s t,
    build vs initial_state = (Ret tt, s, t) ∧
    list_ s = Some 0 ∧
    chain (heap s) 0 (seq 1 (length vs)) ∧
    element <$> heap s = "" :: vs ∧
    Forall (is_free (heap s)) (0 :: seq 1 (length vs)) ∧
    (∀ p nd, heap s !! p = Some nd →
       serial_num (mutex nd) = (N.of_nat p mod UINT_MOD)%N) ∧
    number s = (N.of_nat (S (length vs)) mod UINT_MOD)%N.
Proof.
  destruct (build_run vs) as [t Ht]. exists (built_state vs), t.
  split_and!; try done.
  - apply built_state_chain.
  - apply (fmap_element_layout ("" :: vs)).
  - apply built_state_free.
  - intros p nd Hp. change (heap (built_state vs)) with (layout ("" :: vs)) in Hp.
    rewrite lookup_layout in Hp.
    destruct (("" :: vs) !! p); by simplify_eq/=.
Qed.

(** ** Calls of [lookup] in any store *)

(** X3. Whatever locks are held in the store, a call of [lookup] that
    returns has been given an index from 1 to the length of the chain
    and a handle that owned nothing, it returns the node at that
    position of the chain with the handle owning its lock, that lock was
    free before the call, and the store after the call is the store
    before it with that one lock held exclusively. *)
Theorem lookup_returns_position (n : N) (h h' : unique_lock) (s s' : state)
    (l p : ptr) (ps : list ptr) (t : list event) :
  list_ s = Some l → chain (heap s) l ps → (n < UINT_MOD)%N →
  lookup n h s = (Ret (p, h'), s', t) →
  (1 ≤ n)%N ∧ N.to_nat n ≤ length ps ∧ owns_lock h = false ∧
  ps !! (N.to_nat n - 1) = Some p ∧
  h' = {| pm := Some p; owns := true |} ∧
  is_free (heap s) p ∧
  s' = with_heap (seize p (heap s)) s.
Proof.
  intros Hl Hc Hn Hrun.
  destruct (lookup_result_position _ _ _ _ _ _ _ Hn Hrun) as (l' & Hl' & Hp).
  assert (l' = l) as -> by congruence.
  apply lookup_inv in Hrun as (_ & Hn0 & Hown & -> & -> & Hfree & _).
  destruct (N.to_nat n) as [|k] eqn:Hk; [lia|].
  rewrite (nth_next_chain _ ps) in Hp by done.
  simpl. rewrite Nat.sub_0_r. split_and!; try done; try lia.
  apply lookup_lt_Some in Hp. lia.
Qed.

Lemma lookup_returns_position_witness :
  (1 ≤ 4)%N ∧ N.to_nat 4 ≤ length (seq 1 9) ∧ owns_lock no_lock = false ∧
  seq 1 9 !! (N.to_nat 4 - 1) = Some 4 ∧
  guard 4 = {| pm := Some 4; owns := true |} ∧
  is_free (heap (with_heap (seize 6 (heap main_state)) main_state)) 4 ∧
  with_heap (seize 4 (seize 6 (heap main_state))) main_state =
    with_heap (seize 4 (heap (with_heap (seize 6 (heap main_state)) main_state)))
      (with_heap (seize 6 (heap main_state)) main_state).
Proof.
  apply (lookup_returns_position 4 no_lock (guard 4)
           (with_heap (seize 6 (heap main_state)) main_state)
           (with_heap (seize 4 (seize 6 (heap main_state))) main_state)
           0 4 (seq 1 9)
           [EvAcquire Shared 0; EvReadNext 0; EvAcquire Shared 1; EvReadNext 1;
            EvRelease Shared 0; EvAcquire Shared 2; EvReadNext 2;
            EvRelease Shared 1; EvAcquire Shared 3; EvReadNext 3;
            EvRelease Shared 2; EvAcquire Exclusive 4; EvRelease Shared 3]).
  - reflexivity.
  - vm_compute. repeat split; eauto.
  - reflexivity.
  - vm_compute. reflexivity.
Defined.

(** X4. In a state whose list is a chain, a call of [lookup] that has
    returned or failed leaves the lock of the sentinel shareable if it
    was: [lookup] never takes the lock of the sentinel exclusively. *)
Theorem lookup_never_seizes_sentinel (n : N) (h : unique_lock) (s s' : state)
    (l : ptr) (ps : list ptr) (r : res (ptr * unique_lock)) (t : list event) :
  list_ s = Some l → chain (heap s) l ps → (n < UINT_MOD)%N →
  can_share (heap s) l → lookup n h s = (r, s', t) →
  match r with
  | Ret _ | Throw _ => can_share (heap s') l
  | _ => True
  end.
Proof. apply lookup_keeps_sentinel_shareable. Qed.

Lemma lookup_never_seizes_sentinel_witness :
  can_share (seize 1 (heap main_state)) 0.
Proof.
  apply (lookup_never_seizes_sentinel 1 no_lock main_state
           (with_heap (seize 1 (heap main_state)) main_state) 0 (seq 1 9)
           (Ret (1, guard 1))
           [EvAcquire Shared 0; EvReadNext 0; EvAcquire Exclusive 1;
            EvRelease Shared 0]).
  - reflexivity.
  - vm_compute. repeat split; eauto.
  - reflexivity.
  - eexists. split; reflexivity.
  - vm_compute. reflexivity.
Defined.

Lemma unlock_after_seize p hp s :
  can_share hp p →
  unlock p (with_heap (seize p hp) s) =
    (Ret tt, with_heap hp s, [EvRelease Exclusive p]).
Proof.
  intros (nd & Hp & Hw). unfold unlock, release. cbn [heap with_heap].
  unfold seize at 1. rewrite list_lookup_alter_eq, Hp. simpl.
  unfold set_heap, with_heap. cbn [heap list_ number]. do 3 f_equal.
  unfold seize. rewrite list_insert_alter, list_alter_alter_eq.
  transitivity (alter id p hp); [|by apply list_alter_id].
  apply list_alter_ext; [|done]. intros x Hx.
  assert (x = nd) as -> by congruence.
  destruct nd as [[[r w] sn] e nx]. simpl in *. by subst.
Qed.

(** X5. Letting go of the handle that [lookup] has returned (the
    destructor of the caller's [unique_lock]) releases the exclusive lock
    of the node and gives back exactly the store before the call; the
    same call can then be made again and returns the same node. *)
Theorem lookup_then_release (n : N) (h h' : unique_lock) (s s' : state)
    (p : ptr) (t : list event) :
  lookup n h s = (Ret (p, h'), s', t) →
  unique_lock_dtor h' s' = (Ret tt, s, [EvRelease Exclusive p]) ∧
  lookup n h (final (unique_lock_dtor h' s')) = (Ret (p, h'), s', t).
Proof.
  intros Hrun.
  pose proof (lookup_inv _ _ _ _ _ _ Hrun)
    as (_ & _ & _ & -> & -> & (nd & Hnd & Hm) & _).
  assert (unique_lock_dtor (guard p) (with_heap (seize p (heap s)) s)
          = (Ret tt, s, [EvRelease Exclusive p])) as Hrel.
  { change (unique_lock_dtor (guard p)) with (unlock p).
    rewrite unlock_after_seize, with_heap_id; [done|].
    exists nd. by rewrite Hm. }
  by rewrite Hrel.
Qed.

Lemma lookup_then_release_witness :
  unique_lock_dtor (guard 1) (with_heap (seize 1 (heap main_state)) main_state)
    = (Ret tt, main_state, [EvRelease Exclusive 1]) ∧
  lookup 1 no_lock
    (final (unique_lock_dtor (guard 1)
              (with_heap (seize 1 (heap main_state)) main_state)))
    = (Ret (1, guard 1), with_heap (seize 1 (heap main_state)) main_state,
       [EvAcquire Shared 0; EvReadNext 0; EvAcquire Exclusive 1;
        EvRelease Shared 0]).
Proof.
  apply (lookup_then_release 1 no_lock (guard 1) main_state).
  vm_compute. reflexivity.
Defined.

(** ** Calls of [lookup] while a node is held *)

Lemma next_of_seize p q hp : next_of (seize p hp) q = next_of hp q.
Proof.
  unfold next_of, seize. rewrite list_lookup_alter.
  case_decide; subst; [|done]. by destruct (hp !! q).
Qed.

Lemma chain_seize p hp : ∀ ps l, chain (seize p hp) l ps ↔ chain hp l ps.
Proof.
  induction ps as [|q ps IH]; intros l; simpl.
  - by rewrite next_of_seize, lookup_seize_is_Some.
  - by rewrite next_of_seize, IH.
Qed.

Lemma is_free_seize_ne p q hp : p ≠ q → is_free hp q → is_free (seize p hp) q.
Proof.
  intros Hne (nd & Hq & Hm). exists nd. split; [|done].
  unfold seize. by rewrite list_lookup_alter_ne.
Qed.

(** X6. The two nested calls of [main], for any chain whose locks are
    all free: after [lookup j] has returned and while its handle is
    held, [lookup i] for a node [i < j] before it returns node [i]; in
    the end the locks of both nodes, which are different nodes, are held
    exclusively and nothing else in the store has changed. *)
Theorem lookup_before_held_node (s : state) (l : ptr) (ps : list ptr)
    (i j : N) (h1 h2 : unique_lock) :
  list_ s = Some l → chain (heap s) l ps →
  Forall (is_free (heap s)) (l :: ps) →
  (0 < i)%N → (i < j)%N → (j < UINT_MOD)%N → N.to_nat j ≤ length ps →
  owns_lock h1 = false → owns_lock h2 = false →
  ∃ pi pj t1 t2,
    ps !! (N.to_nat i - 1) = Some pi ∧ ps !! (N.to_nat j - 1) = Some pj ∧
    pi ≠ pj ∧
    lookup j h1 s = (Ret (pj, guard pj), with_heap (seize pj (heap s)) s, t1) ∧
    lookup i h2 (with_heap (seize pj (heap s)) s) =
      (Ret (pi, guard pi), with_heap (seize pi (seize pj (heap s))) s, t2).
Proof.
  intros Hl Hc Hfree Hi Hij Hj Hlen Hown1 Hown2.
  destruct (lookup_lt_is_Some_2 ps (N.to_nat i - 1)) as [pi Hpi]; [lia|].
  destruct (lookup_lt_is_Some_2 ps (N.to_nat j - 1)) as [pj Hpj]; [lia|].
  pose proof (chain_NoDup _ _ _ Hc) as Hnd.
  assert (∀ k q, (l :: ps) !! k = Some q → k < N.to_nat j → q ≠ pj) as Hbefore.
  { intros k q Hk Hlt ->.
    assert ((l :: ps) !! (N.to_nat j) = Some pj) as Hpj'.
    { replace (N.to_nat j) with (S (N.to_nat j - 1)) by lia. done. }
    pose proof (NoDup_lookup _ _ _ _ Hnd Hk Hpj'). lia. }
  assert (pi ≠ pj) as Hne.
  { apply (Hbefore (S (N.to_nat i - 1))); [done|lia]. }
  rewrite Forall_forall in Hfree.
  destruct (lookup_found s l ps j h1 pj) as [t1 Ht1]; try done; try lia.
  { apply Forall_take, Forall_forall. intros q Hq.
    by apply is_free_can_share, Hfree. }
  { apply Hfree. right. by apply list_elem_of_lookup_2 in Hpj. }
  destruct (lookup_found (with_heap (seize pj (heap s)) s) l ps i h2 pi)
    as [t2 Ht2]; try done; try lia; [by apply chain_seize| | |].
  { apply Forall_forall. intros q [k [Hk Hlt]]%elem_of_take.
    apply is_free_can_share, is_free_seize_ne.
    - apply not_eq_sym, (Hbefore k); [done|lia].
    - apply Hfree. by apply list_elem_of_lookup_2 in Hk. }
  { apply is_free_seize_ne; [done|].
    apply Hfree. right. by apply list_elem_of_lookup_2 in Hpi. }
  exists pi, pj, t1, t2. by split_and!.
Qed.

Lemma lookup_before_held_node_witness :
  ∃ pi pj t1 t2,
    seq 1 9 !! (N.to_nat 4 - 1) = Some pi ∧ seq 1 9 !! (N.to_nat 6 - 1) = Some pj ∧
    pi ≠ pj ∧
    lookup 6 no_lock main_state =
      (Ret (pj, guard pj), with_heap (seize pj (heap main_state)) main_state, t1) ∧
    lookup 4 no_lock (with_heap (seize pj (heap main_state)) main_state) =
      (Ret (pi, guard pi),
       with_heap (seize pi (seize pj (heap main_state))) main_state, t2).
Proof.
  apply (lookup_before_held_node main_state 0 (seq 1 9) 4 6 no_lock no_lock).
  - reflexivity.
  - vm_compute. repeat split; eauto.
  - vm_compute. repeat constructor; eexists; split; reflexivity.
  - reflexivity.
  - reflexivity.
  - reflexivity.
  - vm_compute. lia.
  - reflexivity.
  - reflexivity.
Defined.

(** The lock of [p] is held exclusively. *)
Lemma seized_share hp p q nd :
  hp !! q = Some nd → writer (m (mutex nd)) = true →
  ∃ nd', share p hp !! q = Some nd' ∧ writer (m (mutex nd')) = true.
Proof.
  intros Hq Hw. unfold share. rewrite list_lookup_alter.
  case_decide; subst; rewrite Hq; simpl; eauto.
Qed.

Section waiting.

Variable hp0 : list node.

(** The walk meets, after [k] steps, a node whose lock is held
    exclusively and which is not yet the node asked for: it waits there,
    holding the shared lock of the node before. *)
Lemma lookup_loop_blocks : ∀ k rest fuel n prev result s pj ndj,
  heap s = share prev hp0 → is_Some (hp0 !! prev) →
  chain hp0 result rest →
  (uint_decr n < N.of_nat fuel)%N →
  (result :: rest) !! k = Some pj →
  hp0 !! pj = Some ndj → writer (m (mutex ndj)) = true →
  k < N.to_nat (uint_decr n) →
  Forall (can_share hp0) (take k (result :: rest)) →
  ∃ prev' t, (prev :: result :: rest) !! k = Some prev' ∧
    lookup_loop fuel n (guard prev) result s =
      (Block pj, with_heap (share prev' hp0) s, t).
Proof.
  induction k as [|k IH];
    intros rest fuel n prev result s pj ndj Hs Hprev Hc Hfuel Hk Hj Hw Hlt Hshare;
    (destruct fuel as [|fuel]; [lia|]); simpl lookup_loop;
    pose proof (uint_decr_lt n) as Hn;
    (destruct (N.eqb_spec (uint_decr n) 0) as [Hz|Hnz]; [lia|]).
  - injection Hk as ->. exists prev, []. split; [done|].
    unfold bind at 1. rewrite shared_lock_ctor_run, Hs.
    destruct (seized_share hp0 prev pj ndj Hj Hw) as (nd' & -> & ->).
    by rewrite <- Hs, with_heap_id.
  - simpl in Hshare. apply Forall_cons in Hshare as [Hres Hshare].
    destruct rest as [|q rest]; [done|]. destruct Hc as [Hnx Hc].
    assert (is_Some (hp0 !! result)) as Hsome.
    { apply next_of_Some_lookup in Hnx as (? & ? & ?). eauto. }
    unfold bind at 1.
    rewrite shared_lock_ctor_ok by (rewrite Hs; by apply can_share_share).
    rewrite Hs. unfold swap, bind at 1.
    rewrite read_next_ok by (cbn [heap with_heap]; by rewrite !lookup_share_is_Some).
    cbn [heap with_heap]. rewrite !next_of_share, Hnx.
    change (shared_lock_dtor (guard ?p)) with (unlock_shared p).
    unfold bind at 1. rewrite unlock_prev_after_share by done.
    assert (uint_decr (uint_decr n) = (uint_decr n - 1)%N) as Hdd
      by (apply uint_decr_pos; lia).
    destruct (IH rest fuel (uint_decr n) result q
                (with_heap (share result hp0) s) pj ndj)
      as (prev' & t & Hprev' & Ht); try done; try lia.
    rewrite Ht. exists prev'. eauto.
Qed.

End waiting.



(** ** The work of a call *)

Lemma cost_weaken {A} (c : M A) k k' : cost c k → k ≤ k' → cost c k'.
Proof. intros Hc Hk s. specialize (Hc s). lia. Qed.

Lemma cost_ret {A} (a : A) : cost (ret a) 0.
Proof. by intros s. Qed.

Lemma cost_fault {A} : cost (@fault A) 0.
Proof. by intros s. Qed.

Lemma cost_bind {A B} (c : M A) (k : A → M B) a b :
  cost c a → (∀ x, cost (k x) b) → cost (bind c k) (a + b).
Proof.
  intros Hc Hk s. specialize (Hc s). unfold bind, trace in *.
  destruct (c s) as [[[x| | | |] s1] t1]; simpl in *; try lia.
  specialize (Hk x s1). unfold trace in Hk.
  destruct (k x s1) as [[r s2] t2]; simpl in *. rewrite length_app. lia.
Qed.

Lemma cost_throw {A} e (c : M unit) a : cost c a → cost (@throw A e c) (S a).
Proof.
  intros Hc s. specialize (Hc s). unfold throw, trace in *.
  destruct (c s) as [[[x| | | |] s1] t1]; simpl in *; lia.
Qed.

Lemma cost_acquire op md p : cost (acquire op md p) 1.
Proof.
  intros s. unfold acquire, trace.
  destruct (heap s !! p); simpl; [|lia]. destruct (op _); simpl; lia.
Qed.

Lemma cost_release op md p : cost (release op md p) 1.
Proof.
  intros s. unfold release, trace.
  destruct (heap s !! p); simpl; [|lia]. destruct (op _); simpl; lia.
Qed.

Lemma cost_read_next p : cost (read_next p) 1.
Proof. intros s. unfold read_next, trace. destruct (heap s !! p); simpl; lia. Qed.

Lemma cost_get_list : cost get_list 0.
Proof. intros s. unfold get_list, trace. by destruct (list_ s). Qed.

Lemma cost_shared_lock_ctor p : cost (shared_lock_ctor p) 1.
Proof.
  apply (cost_bind _ _ 1 0); [apply cost_acquire | intros; apply cost_ret].
Qed.

Lemma cost_unique_lock_ctor p : cost (unique_lock_ctor p) 1.
Proof.
  apply (cost_bind _ _ 1 0); [apply cost_acquire | intros; apply cost_ret].
Qed.

Lemma cost_shared_lock_dtor l : cost (shared_lock_dtor l) 1.
Proof.
  unfold shared_lock_dtor.
  destruct (owns l); [|apply (cost_weaken _ 0); [apply cost_ret|lia]].
  destruct (pm l); [apply cost_release|].
  apply (cost_weaken _ 0); [apply cost_fault|lia].
Qed.

Lemma cost_unique_lock_dtor l : cost (unique_lock_dtor l) 1.
Proof.
  unfold unique_lock_dtor.
  destruct (owns l); [|apply (cost_weaken _ 0); [apply cost_ret|lia]].
  destruct (pm l); [apply cost_release|].
  apply (cost_weaken _ 0); [apply cost_fault|lia].
Qed.

Lemma cost_lookup_loop : ∀ fuel n read_lock result,
  cost (lookup_loop fuel n read_lock result) (3 * N.to_nat (uint_decr n) + 2).
Proof.
  induction fuel as [|fuel IH]; intros n read_lock result; simpl.
  { intros s. simpl. lia. }
  pose proof (uint_decr_lt n).
  destruct (N.eqb_spec (uint_decr n) 0) as [Hz|Hnz].
  { apply (cost_weaken _ 0); [apply cost_ret|lia]. }
  assert (uint_decr (uint_decr n) = (uint_decr n - 1)%N) as Hdd
    by (apply uint_decr_pos; lia).
  apply (cost_weaken _ (1 + (1 + (3 * N.to_nat (uint_decr n - 1) + 3))));
    [|lia].
  apply cost_bind; [apply cost_shared_lock_ctor|]. intros next_lock.
  apply cost_bind; [apply cost_read_next|]. intros [q|].
  - apply (cost_weaken _ (1 + (3 * N.to_nat (uint_decr n - 1) + 2))); [|lia].
    apply cost_bind; [apply cost_shared_lock_dtor|]. intros _.
    rewrite <- Hdd. apply IH.
  - apply (cost_weaken _ (S (1 + 1))); [|lia].
    apply cost_throw, cost_bind; [apply cost_shared_lock_dtor|].
    intros _. apply cost_shared_lock_dtor.
Qed.


(** ** The reader-writer discipline *)

Lemma keeps_ret {A} (a : A) : keeps (ret a).
Proof. by intros s. Qed.

Lemma keeps_fault {A} : keeps (@fault A).
Proof. by intros s. Qed.

Lemma keeps_out_of_fuel {A} : keeps (@out_of_fuel A).
Proof. by intros s. Qed.

Lemma keeps_bind {A B} (c : M A) (k : A → M B) :
  keeps c → (∀ a, keeps (k a)) → keeps (bind c k).
Proof.
  intros Hc Hk s Hs. specialize (Hc s Hs). unfold bind, final in *.
  destruct (c s) as [[[a| | | |] s1] t1]; simpl in *; try done.
  specialize (Hk a s1 Hc). unfold final in Hk.
  by destruct (k a s1) as [[r s2] t2].
Qed.

Lemma keeps_throw {A} e (c : M unit) : keeps c → keeps (@throw A e c).
Proof.
  intros Hc s Hs. specialize (Hc s Hs). unfold throw, final in *.
  by destruct (c s) as [[[a| | | |] s1] t1].
Qed.

Lemma sm_lock_ok x y : sm_lock x = Some y → mutex_ok y.
Proof.
  unfold sm_lock. destruct (_ || _) eqn:Hc; [done|]. intros [= <-].
  apply orb_false_elim in Hc as [_ Hr].
  apply negb_false_iff, Nat.eqb_eq in Hr. by intros _.
Qed.

Lemma sm_unlock_ok x y : sm_unlock x = Some y → mutex_ok y.
Proof. unfold sm_unlock. destruct (writer x); [|done]. by intros [= <-]. Qed.

Lemma sm_lock_shared_ok x y : sm_lock_shared x = Some y → mutex_ok y.
Proof.
  unfold sm_lock_shared. destruct (writer x) eqn:Hw; [done|].
  intros [= <-]. unfold mutex_ok. simpl. congruence.
Qed.

Lemma sm_unlock_shared_ok x y :
  mutex_ok x → sm_unlock_shared x = Some y → mutex_ok y.
Proof.
  unfold sm_unlock_shared, mutex_ok. intros Hx.
  destruct (readers x) as [|r] eqn:Hr; [done|]. intros [= <-]. simpl.
  intros Hw. specialize (Hx Hw). lia.
Qed.

Lemma store_ok_insert s p nd x :
  store_ok s → mutex_ok x →
  store_ok (set_heap (λ hp, <[p := with_m x nd]> hp) s).
Proof. intros Hs Hx. unfold store_ok. simpl. by apply Forall_insert. Qed.

Lemma keeps_acquire op md p :
  (∀ x y, mutex_ok x → op x = Some y → mutex_ok y) → keeps (acquire op md p).
Proof.
  intros Hop s Hs. unfold acquire, final.
  destruct (heap s !! p) as [nd|] eqn:Hp; simpl; [|done].
  destruct (op _) as [y|] eqn:Hy; simpl; [|done].
  apply store_ok_insert; [done|]. eapply Hop; [|exact Hy].
  unfold store_ok in Hs. by apply (Forall_lookup_1 _ _ _ _ Hs Hp).
Qed.

Lemma keeps_release op md p :
  (∀ x y, mutex_ok x → op x = Some y → mutex_ok y) → keeps (release op md p).
Proof.
  intros Hop s Hs. unfold release, final.
  destruct (heap s !! p) as [nd|] eqn:Hp; simpl; [|done].
  destruct (op _) as [y|] eqn:Hy; simpl; [|done].
  apply store_ok_insert; [done|]. eapply Hop; [|exact Hy].
  unfold store_ok in Hs. by apply (Forall_lookup_1 _ _ _ _ Hs Hp).
Qed.

Lemma keeps_lock p : keeps (lock p).
Proof. apply keeps_acquire. intros x y _. apply sm_lock_ok. Qed.

Lemma keeps_unlock p : keeps (unlock p).
Proof. apply keeps_release. intros x y _. apply sm_unlock_ok. Qed.

Lemma keeps_lock_shared p : keeps (lock_shared p).
Proof. apply keeps_acquire. intros x y _. apply sm_lock_shared_ok. Qed.

Lemma keeps_unlock_shared p : keeps (unlock_shared p).
Proof. apply keeps_release. apply sm_unlock_shared_ok. Qed.

Lemma keeps_read_next p : keeps (read_next p).
Proof. intros s Hs. unfold read_next, final. by destruct (heap s !! p). Qed.

Lemma keeps_get_list : keeps get_list.
Proof. intros s Hs. unfold get_list, final. by destruct (list_ s). Qed.

Lemma keeps_shared_lock_ctor p : keeps (shared_lock_ctor p).
Proof.
  apply keeps_bind; [apply keeps_lock_shared | intros; apply keeps_ret].
Qed.

Lemma keeps_unique_lock_ctor p : keeps (unique_lock_ctor p).
Proof.
  apply keeps_bind; [apply keeps_lock | intros; apply keeps_ret].
Qed.

Lemma keeps_shared_lock_dtor l : keeps (shared_lock_dtor l).
Proof.
  unfold shared_lock_dtor. destruct (owns l); [|apply keeps_ret].
  destruct (pm l); [apply keeps_unlock_shared | apply keeps_fault].
Qed.

Lemma keeps_unique_lock_dtor l : keeps (unique_lock_dtor l).
Proof.
  unfold unique_lock_dtor. destruct (owns l); [|apply keeps_ret].
  destruct (pm l); [apply keeps_unlock | apply keeps_fault].
Qed.

Create HintDb discipline.

#[local] Hint Resolve keeps_ret keeps_fault keeps_out_of_fuel keeps_throw
  keeps_read_next keeps_get_list keeps_shared_lock_ctor
  keeps_unique_lock_ctor keeps_shared_lock_dtor keeps_unique_lock_dtor
  : discipline.

Lemma keeps_lookup_loop fuel : ∀ n read_lock result,
  keeps (lookup_loop fuel n read_lock result).
Proof.
  induction fuel as [|fuel IH]; intros n read_lock result; simpl;
    [auto with discipline|].
  destruct (uint_decr n =? 0)%N; [auto with discipline|].
  apply keeps_bind; [auto with discipline|]. intros next_lock.
  apply keeps_bind; [auto with discipline|]. intros [q|].
  - apply keeps_bind; auto with discipline.
  - apply keeps_throw, keeps_bind; auto with discipline.
Qed.

Lemma keeps_lookup n h : keeps (lookup n h).
Proof.
  unfold lookup.
  apply keeps_bind; [auto with discipline|]. intros l.
  apply keeps_bind; [auto with discipline|]. intros read_lock.
  apply keeps_bind; [auto with discipline|].
  intros [result|]; [|auto with discipline].
  destruct (_ || _); [auto with discipline|].
  apply keeps_bind; [apply keeps_lookup_loop|]. intros [r rl].
  apply keeps_bind; [auto with discipline|]. intros result_lock. simpl.
  repeat (apply keeps_bind; [auto with discipline|]; intros).
  auto with discipline.
Qed.

Lemma keeps_find_last fuel : ∀ p, keeps (find_last fuel p).
Proof.
  induction fuel as [|fuel IH]; intros p; simpl; [auto with discipline|].
  apply keeps_bind; [auto with discipline|]. intros [q|]; auto with discipline.
Qed.

Lemma keeps_new_node v : keeps (new_node v).
Proof.
  intros s Hs. rewrite new_node_run. unfold final, store_ok in *. simpl.
  apply Forall_app. split; [done|]. by apply Forall_singleton.
Qed.

Lemma keeps_write_next p q : keeps (write_next p q).
Proof.
  intros s Hs. unfold write_next, final.
  destruct (heap s !! p) as [nd|] eqn:Hp; simpl; [|done].
  unfold store_ok in *. simpl. apply Forall_insert; [done|]. simpl.
  by apply (Forall_lookup_1 _ _ _ _ Hs Hp).
Qed.

Lemma keeps_list_add v : keeps (list_add v).
Proof.
  unfold list_add.
  apply keeps_bind; [apply keeps_new_node|]. intros p.
  apply keeps_bind; [auto with discipline|]. intros l.
  apply keeps_bind; [by intros ?|]. intros fuel.
  apply keeps_bind; [apply keeps_find_last|]. intros q.
  apply keeps_write_next.
Qed.



(** * The dynamic map *)

Section dynmap_facts.

Import dynmap.

Lemma dynmap_use_count_at st p c :
  store st !! p = Some c → use_count_at st p = use_count c.
Proof. intros Hp. unfold use_count_at. by rewrite Hp. Qed.

(** The two ways through [lookup]. *)
Lemma dynmap_lookup_hit s st p c :
  map st !! s = Some (Some p) → store st !! p = Some c → use_count c ≠ 0 →
  lookup s st =
    (p,
     {| store := <[p := {| object := object c; use_count := S (use_count c) |}]> (store st);
        number := number st; map := map st |},
     [Returning s (this_num (object c))]).
Proof.
  intros Hs Hp Hc. unfold lookup, subscript, weak_lock. rewrite Hs, Hp.
  destruct (Nat.eqb_spec (use_count c) 0) as [|_]; [done|].
  unfold this_num_at.
  by rewrite list_lookup_insert_eq by (by apply lookup_lt_Some in Hp).
Qed.

Lemma dynmap_lookup_miss s st :
  expired st s →
  lookup s st =
    (length (store st),
     {| store := store st ++ [ {| object := {| this_num := number st |}; use_count := 1 |} ];
        number := uint_incr (number st);
        map := <[s := Some (length (store st))]> (map st) |},
     [Creating (number st); Returning s (number st)]).
Proof.
  intros Hex.
  assert (lookup s st =
                let '(result, sto) := weak_lock (default None (map st !! s)) (store st) in
                match result with
                | Some p =>
                    (p, {| store := sto; number := number st; map := (subscript s (map st)).2 |},
                     [Returning s (this_num_at sto p)])
                | None =>
                    let '(p, sto, num, out) := make_shared sto (number st) in
                    (p, {| store := sto; number := num;
                           map := <[s := Some p]> (subscript s (map st)).2 |},
                     out ++ [Returning s (this_num_at sto p)])
                end) as Hrun.
  { unfold lookup, subscript. by destruct (map st !! s). }
  rewrite Hrun. clear Hrun.
  assert (weak_lock (default None (map st !! s)) (store st) = (None, store st))
    as ->.
  { unfold expired, use_count_at in Hex. unfold weak_lock.
    destruct (map st !! s) as [[p|]|]; simpl; try done.
    destruct (store st !! p) as [c|]; [|done]. by rewrite Hex. }
  unfold make_shared, this_num_at.
  rewrite lookup_app_r, Nat.sub_diag by lia. simpl.
  do 2 f_equal. f_equal. unfold subscript.
  destruct (map st !! s); simpl; [done|]. by rewrite insert_insert_eq.
Qed.

Lemma dynmap_hit_or_expired st s :
  (∃ p c, map st !! s = Some (Some p) ∧ store st !! p = Some c ∧ use_count c ≠ 0)
  ∨ expired st s.
Proof.
  unfold expired, use_count_at.
  destruct (map st !! s) as [[p|]|]; [|by right..].
  destruct (store st !! p) as [c|] eqn:Hp; [|by right].
  destruct (decide (use_count c = 0)); [by right|left; eauto].
Qed.

Lemma dynmap_fresh_use_count st s :
  expired st s → use_count_at st (length (store st)) = 0.
Proof.
  intros _. unfold use_count_at.
  by rewrite (proj2 (lookup_ge_None (store st) (length (store st)))).
Qed.

Lemma dynmap_lookup_effect (s : string) (st : state) :
  map (after (lookup s st)) !! s = Some (Some (result (lookup s st))) ∧
  use_count_at (after (lookup s st)) (result (lookup s st))
    = S (use_count_at st (result (lookup s st))) ∧
  (∀ q, q ≠ result (lookup s st) →
        use_count_at (after (lookup s st)) q = use_count_at st q) ∧
  (∀ s', s' ≠ s → map (after (lookup s st)) !! s' = map st !! s') ∧
  (∀ q c, store st !! q = Some c →
          ∃ c', store (after (lookup s st)) !! q = Some c' ∧ object c' = object c).
Proof.
  destruct (dynmap_hit_or_expired st s) as [(p & c & Hs & Hp & Hc)|Hex].
  - rewrite (dynmap_lookup_hit s st p c) by done.
    unfold after, result, use_count_at. simpl.
    pose proof (lookup_lt_Some _ _ _ Hp) as Hlt.
    split_and!; try done.
    + by rewrite list_lookup_insert_eq, Hp.
    + intros q Hq. by rewrite list_lookup_insert_ne.
    + intros q c0 Hq. destruct (decide (p = q)) as [<-|Hne].
      * rewrite list_lookup_insert_eq by done. eexists. split; [done|].
        by simplify_eq/=.
      * rewrite list_lookup_insert_ne by done. eauto.
  - rewrite (dynmap_lookup_miss s st) by done.
    unfold after, result, use_count_at. simpl.
    split_and!.
    + by rewrite lookup_insert_eq.
    + rewrite lookup_app_r, Nat.sub_diag by lia. simpl.
      by rewrite (proj2 (lookup_ge_None (store st) (length (store st)))).
    + intros q Hq. destruct (store st !! q) as [c|] eqn:Hc.
      * by rewrite lookup_app_l, Hc by (by apply lookup_lt_Some in Hc).
      * apply lookup_ge_None in Hc.
        rewrite lookup_app_r by done.
        by destruct (q - length (store st)) as [|d] eqn:Hd; [lia|].
    + intros s' Hs'. by rewrite lookup_insert_ne.
    + intros q c Hq. exists c. split; [|done].
      by rewrite lookup_app_l by (by apply lookup_lt_Some in Hq).
Qed.

(** X10. Each [lookup] hands out exactly one reference.  After the
    call the map leads from the string to the object returned, whose use
    count is one more than before (one, for an object just created); no
    other use count, no other entry of the map and no serial number of an
    existing object has changed.  The map itself keeps no object alive. *)
Theorem dynmap_lookup_hands_out_one (s : string) (st : state) :
  map (after (lookup s st)) !! s = Some (Some (result (lookup s st))) ∧
  use_count_at (after (lookup s st)) (result (lookup s st))
    = S (use_count_at st (result (lookup s st))) ∧
  (∀ q, q ≠ result (lookup s st) →
        use_count_at (after (lookup s st)) q = use_count_at st q) ∧
  (∀ s', s' ≠ s → map (after (lookup s st)) !! s' = map st !! s') ∧
  (∀ q c, store st !! q = Some c →
          ∃ c', store (after (lookup s st)) !! q = Some c' ∧ object c' = object c).
Proof. apply dynmap_lookup_effect. Qed.

(** The string [s] leads to the live object at [p], which has the
    serial number [n]. *)
Lemma dynmap_held_kept s p n s' st :
  (map st !! s = Some (Some p) ∧
   ∃ c, store st !! p = Some c ∧ use_count c ≠ 0 ∧ this_num (object c) = n) →
  (map (after (lookup s' st)) !! s = Some (Some p) ∧
   ∃ c, store (after (lookup s' st)) !! p = Some c ∧ use_count c ≠ 0 ∧
        this_num (object c) = n).
Proof.
  intros (Hs & c & Hp & Hc & Hn).
  pose proof (dynmap_lookup_effect s' st)
    as (Hs' & Hres & Hother & Hmap & Hobj).
  split.
  - destruct (decide (s' = s)) as [->|Hne]; [|by rewrite Hmap].
    rewrite Hs'. do 2 f_equal.
    destruct (dynmap_hit_or_expired st s) as [(p' & c' & Hs2 & Hp2 & Hc2)|Hex].
    + rewrite (dynmap_lookup_hit s st p' c') by done.
      unfold result. simpl. congruence.
    + unfold expired in Hex. rewrite Hs in Hex.
      by rewrite (dynmap_use_count_at _ _ _ Hp) in Hex.
  - destruct (Hobj p c Hp) as (c' & Hp' & Hoc). exists c'.
    split_and!; [done| |congruence].
    destruct (decide (p = result (lookup s' st))) as [Heq|Hne].
    + rewrite <- Heq in Hres.
      rewrite (dynmap_use_count_at _ _ _ Hp') in Hres. lia.
    + specialize (Hother p Hne).
      rewrite (dynmap_use_count_at _ _ _ Hp'),
        (dynmap_use_count_at _ _ _ Hp) in Hother. lia.
Qed.

Lemma dynmap_held_kept_lookups s p n : ∀ ss st,
  (map st !! s = Some (Some p) ∧
   ∃ c, store st !! p = Some c ∧ use_count c ≠ 0 ∧ this_num (object c) = n) →
  (map (after (lookups ss st)) !! s = Some (Some p) ∧
   ∃ c, store (after (lookups ss st)) !! p = Some c ∧ use_count c ≠ 0 ∧
        this_num (object c) = n).
Proof.
  induction ss as [|s' ss IH]; intros st Hst; [done|].
  apply (dynmap_held_kept s p n s') in Hst. apply IH in Hst.
  simpl. unfold after in *.
  destruct (lookup s' st) as [[p1 st1] o1]. simpl in *.
  by destruct (lookups ss st1) as [[ps st2] o2].
Qed.

(** X11. While the result of a lookup is held, later lookups of the
    same string return the same object, whatever other lookups are made
    in between: no serial number is created for it, the counter does not
    move, and the number printed is the one of the first lookup. *)
Theorem dynmap_lookup_same_while_held (s : string) (ss : list string) (st : state) :
  result (lookup s (after (lookups ss (after (lookup s st)))))
    = result (lookup s st) ∧
  printed (lookup s (after (lookups ss (after (lookup s st)))))
    = [Returning s (this_num_at (store (after (lookup s st))) (result (lookup s st)))] ∧
  number (after (lookup s (after (lookups ss (after (lookup s st))))))
    = number (after (lookups ss (after (lookup s st)))) ∧
  length (store (after (lookup s (after (lookups ss (after (lookup s st)))))))
    = length (store (after (lookups ss (after (lookup s st))))).
Proof.
  pose proof (dynmap_lookup_effect s st) as (Hs & Hres & _).
  set (p := result (lookup s st)) in *. set (st1 := after (lookup s st)) in *.
  assert (∃ c, store st1 !! p = Some c ∧ use_count c ≠ 0) as (c & Hp & Hc).
  { unfold use_count_at in Hres. destruct (store st1 !! p) as [c|]; [|done].
    exists c. split; [done|lia]. }
  destruct (dynmap_held_kept_lookups s p (this_num (object c)) ss st1)
    as (Hs2 & c2 & Hp2 & Hc2 & Hn2); [by eauto|].
  rewrite (dynmap_lookup_hit s _ p c2) by done.
  unfold result, printed, after, this_num_at. simpl. rewrite Hp, Hn2.
  split_and!; try done. by rewrite length_insert.
Qed.

(** X12. Once the last reference is gone the next lookup gets a new
    serial number.  If no live object stands behind [s], [lookup s]
    creates one with the current value of the counter; when the caller
    drops it, it is destroyed at once; and the next [lookup s] creates
    another object, with the next value of the counter. *)
Theorem dynmap_lookup_fresh_after_last_drop (s : string) (st : state) :
  expired st s →
  printed (lookup s st) = [Creating (number st); Returning s (number st)] ∧
  ∃ st2,
    drop (result (lookup s st)) (after (lookup s st))
      = Some (st2, [Destroying (number st)]) ∧
    expired st2 s ∧
    result (lookup s st2) ≠ result (lookup s st) ∧
    printed (lookup s st2)
      = [Creating (uint_incr (number st)); Returning s (uint_incr (number st))].
Proof.
  intros Hex. rewrite (dynmap_lookup_miss s st) by done.
  unfold printed, result, after. simpl. split; [done|].
  unfold drop. simpl. rewrite lookup_app_r, Nat.sub_diag by lia. simpl.
  eexists. split; [reflexivity|].
  assert (expired
            {| store := <[length (store st) :=
                          {| object := {| this_num := number st |}; use_count := 0 |}]>
                          (store st ++ [ {| object := {| this_num := number st |};
                                            use_count := 1 |} ]);
               number := uint_incr (number st);
               map := <[s := Some (length (store st))]> (map st) |} s) as Hex2.
  { unfold expired, use_count_at. simpl. rewrite lookup_insert_eq.
    rewrite list_lookup_insert_eq; [done|]. rewrite length_app. simpl. lia. }
  split; [done|]. rewrite (dynmap_lookup_miss s _ Hex2). simpl.
  split; [|done]. rewrite length_insert, length_app. simpl. lia.
Qed.

Lemma dynmap_lookup_fresh_after_last_drop_witness :
  printed (lookup "P" initial_state)
    = [Creating (number initial_state); Returning "P" (number initial_state)] ∧
  ∃ st2,
    drop (result (lookup "P" initial_state)) (after (lookup "P" initial_state))
      = Some (st2, [Destroying (number initial_state)]) ∧
    expired st2 "P" ∧
    result (lookup "P" st2) ≠ result (lookup "P" initial_state) ∧
    printed (lookup "P" st2)
      = [Creating (uint_incr (number initial_state));
         Returning "P" (uint_incr (number initial_state))].
Proof.
  apply (dynmap_lookup_fresh_after_last_drop "P" initial_state).
  vm_compute. exact I.
Defined.

Lemma dynmap_wf_initial : wf initial_state.
Proof.
  unfold wf. simpl. split_and!; try done.
Qed.

Lemma dynmap_wf_lookup s st : wf st → wf (after (lookup s st)).
Proof.
  intros (Halloc & Hinj & Hnum & Hctr).
  destruct (dynmap_hit_or_expired st s) as [(p & c & Hs & Hp & Hc)|Hex].
  - rewrite (dynmap_lookup_hit s st p c) by done. unfold after, wf. simpl.
    rewrite length_insert. split_and!; try done.
    intros q c0 Hq. destruct (decide (p = q)) as [<-|Hne].
    + rewrite list_lookup_insert_eq in Hq by (by apply lookup_lt_Some in Hp).
      simplify_eq/=. by apply Hnum.
    + rewrite list_lookup_insert_ne in Hq by done. by apply Hnum.
  - rewrite (dynmap_lookup_miss s st) by done. unfold after, wf. simpl.
    rewrite length_app. simpl. split_and!.
    + intros s' q Hq. destruct (decide (s = s')) as [<-|Hne].
      * rewrite lookup_insert_eq in Hq. simplify_eq/=. lia.
      * rewrite lookup_insert_ne in Hq by done. apply Halloc in Hq. lia.
    + intros s1 s2 q H1 H2.
      destruct (decide (s = s1)) as [<-|Hne1], (decide (s = s2)) as [<-|Hne2];
        try done.
      * rewrite lookup_insert_eq in H1. rewrite lookup_insert_ne in H2 by done.
        simplify_eq/=. apply Halloc in H2. lia.
      * rewrite lookup_insert_eq in H2. rewrite lookup_insert_ne in H1 by done.
        simplify_eq/=. apply Halloc in H1. lia.
      * rewrite lookup_insert_ne in H1, H2 by done. by apply (Hinj s1 s2 q).
    + intros q c Hq. destruct (store st !! q) as [c0|] eqn:Hq0.
      * rewrite lookup_app_l in Hq by (by apply lookup_lt_Some in Hq0).
        apply Hnum. congruence.
      * apply lookup_ge_None in Hq0. rewrite lookup_app_r in Hq by done.
        destruct (q - length (store st)) as [|d] eqn:Hd; [|done].
        simpl in Hq. injection Hq as <-. simpl. rewrite Hctr.
        f_equal. lia.
    + rewrite Hctr. unfold uint_incr. rewrite N.Div0.add_mod_idemp_l.
      f_equal. lia.
Qed.

Lemma dynmap_wf_drop p st st' o : wf st → drop p st = Some (st', o) → wf st'.
Proof.
  intros (Halloc & Hinj & Hnum & Hctr). unfold drop.
  destruct (store st !! p) as [c|] eqn:Hp; [|done].
  destruct (use_count c) as [|k]; [done|]. intros [= <- <-].
  unfold wf. simpl. rewrite length_insert. split_and!; try done.
  intros q c0 Hq. destruct (decide (p = q)) as [<-|Hne].
  - rewrite list_lookup_insert_eq in Hq by (by apply lookup_lt_Some in Hp).
    simplify_eq/=. by apply Hnum.
  - rewrite list_lookup_insert_ne in Hq by done. by apply Hnum.
Qed.

(** X13. The map and the objects stay consistent: every non-empty
    entry of the map refers to an allocated object, no two strings refer
    to the same object, the object at address [p] has the serial number
    [(p + 1) mod 2^32] and the counter is one more than the last number
    given.  This holds at the start, and [lookup] and the dropping of a
    shared pointer keep it. *)
Theorem dynmap_consistency_kept (s : string) (p : nat) (st : state) :
  wf st →
  wf initial_state ∧
  wf (after (lookup s st)) ∧
  match drop p st with Some (st', _) => wf st' | None => True end.
Proof.
  intros Hwf. split_and!.
  - apply dynmap_wf_initial.
  - by apply dynmap_wf_lookup.
  - destruct (drop p st) as [[st' o]|] eqn:Hd; [|done].
    by apply (dynmap_wf_drop p st st' o).
Qed.

Lemma dynmap_consistency_kept_witness :
  wf initial_state ∧
  wf (after (lookup "Q" (after (lookup "P" initial_state)))) ∧
  match drop 0 (after (lookup "P" initial_state)) with
  | Some (st', _) => wf st'
  | None => True
  end.
Proof.
  apply (dynmap_consistency_kept "Q" 0 (after (lookup "P" initial_state))).
  apply dynmap_wf_lookup, dynmap_wf_initial.
Defined.

(** X14. Two different strings never share a serial number: looked up
    one after the other in a consistent state they are given different
    objects, and different numbers as long as fewer than [2^32 - 2]
    objects have been created. *)
Theorem dynmap_distinct_strings (s1 s2 : string) (st : state) :
  wf st → s1 ≠ s2 →
  (N.of_nat (length (store st)) + 2 < UINT_MOD)%N →
  result (lookup s1 st) ≠ result (lookup s2 (after (lookup s1 st))) ∧
  this_num_at (store (after (lookup s2 (after (lookup s1 st)))))
    (result (lookup s1 st))
  ≠ this_num_at (store (after (lookup s2 (after (lookup s1 st)))))
      (result (lookup s2 (after (lookup s1 st)))).
Proof.
  intros Hwf Hne Hlen.
  pose proof (dynmap_wf_lookup s1 st Hwf) as Hwf1.
  pose proof (dynmap_wf_lookup s2 _ Hwf1) as Hwf2.
  pose proof (dynmap_lookup_effect s1 st) as (Hm1 & _).
  pose proof (dynmap_lookup_effect s2 (after (lookup s1 st)))
    as (Hm2 & _ & _ & Hmap & _).
  set (st1 := after (lookup s1 st)) in *.
  set (st2 := after (lookup s2 st1)) in *.
  set (p1 := result (lookup s1 st)) in *.
  set (p2 := result (lookup s2 st1)) in *.
  assert (map st2 !! s1 = Some (Some p1)) as Hm1' by (by rewrite Hmap).
  assert (p1 ≠ p2) as Hp.
  { intros Heq. apply Hne. destruct Hwf2 as (_ & Hinj & _).
    apply (Hinj s1 s2 p1); [done|by rewrite Heq]. }
  split; [done|].
  destruct Hwf2 as (Halloc & _ & Hnum & _).
  pose proof (Halloc _ _ Hm1') as Hlt1. pose proof (Halloc _ _ Hm2) as Hlt2.
  destruct (lookup_lt_is_Some_2 _ _ Hlt1) as [c1 Hc1].
  destruct (lookup_lt_is_Some_2 _ _ Hlt2) as [c2 Hc2].
  unfold this_num_at. rewrite Hc1, Hc2, (Hnum _ _ Hc1), (Hnum _ _ Hc2).
  assert (length (store st2) ≤ length (store st) + 2) as Hgrow.
  { assert (∀ s st, length (store (after (lookup s st))) ≤ S (length (store st)))
      as Hstep.
    { intros s0 st0.
      destruct (dynmap_hit_or_expired st0 s0) as [(p & c & ? & ? & ?)|Hex].
      - rewrite (dynmap_lookup_hit s0 st0 p c) by done. unfold after. simpl.
        rewrite length_insert. lia.
      - rewrite (dynmap_lookup_miss s0 st0) by done. unfold after. simpl.
        rewrite length_app. simpl. lia. }
    assert (length (store st1) ≤ S (length (store st))) by apply Hstep.
    assert (length (store st2) ≤ S (length (store st1))) by apply Hstep.
    lia. }
  rewrite !N.mod_small by lia. lia.
Qed.

Lemma dynmap_distinct_strings_witness :
  result (lookup "P" initial_state)
    ≠ result (lookup "Q" (after (lookup "P" initial_state))) ∧
  this_num_at (store (after (lookup "Q" (after (lookup "P" initial_state)))))
    (result (lookup "P" initial_state))
  ≠ this_num_at (store (after (lookup "Q" (after (lookup "P" initial_state)))))
      (result (lookup "Q" (after (lookup "P" initial_state)))).
Proof.
  apply (dynmap_distinct_strings "P" "Q" initial_state).
  - apply dynmap_wf_initial.
  - discriminate.
  - reflexivity.
Defined.

(** X15. A destroyed object stays destroyed.  If the use count of an
    object is zero, no lookup returns it or touches it, and no shared
    pointer to it can be dropped: a serial number that has been
    destroyed is never handed out again. *)
Theorem dynmap_never_resurrects (s : string) (p : nat) (c : managed) (st : state) :
  store st !! p = Some c → use_count c = 0 →
  result (lookup s st) ≠ p ∧
  store (after (lookup s st)) !! p = Some c ∧
  drop p st = None.
Proof.
  intros Hp Hc. split_and!.
  - destruct (dynmap_hit_or_expired st s) as [(p' & c' & Hs & Hp' & Hc')|Hex].
    + rewrite (dynmap_lookup_hit s st p' c') by done. unfold result. simpl.
      intros ->. congruence.
    + rewrite (dynmap_lookup_miss s st) by done. unfold result. simpl.
      apply lookup_lt_Some in Hp. lia.
  - destruct (dynmap_hit_or_expired st s) as [(p' & c' & Hs & Hp' & Hc')|Hex].
    + rewrite (dynmap_lookup_hit s st p' c') by done. unfold after. simpl.
      rewrite list_lookup_insert_ne; [done|]. intros ->. congruence.
    + rewrite (dynmap_lookup_miss s st) by done. unfold after. simpl.
      by rewrite lookup_app_l by (by apply lookup_lt_Some in Hp).
  - unfold drop. by rewrite Hp, Hc.
Qed.

Lemma dynmap_never_resurrects_witness :
  result (lookup "P"
            {| store := [ {| object := {| this_num := 1 |}; use_count := 0 |} ];
               number := 2; map := {[ "P" := Some 0 ]} |}) ≠ 0 ∧
  store (after (lookup "P"
            {| store := [ {| object := {| this_num := 1 |}; use_count := 0 |} ];
               number := 2; map := {[ "P" := Some 0 ]} |})) !! 0
    = Some {| object := {| this_num := 1 |}; use_count := 0 |} ∧
  drop 0 {| store := [ {| object := {| this_num := 1 |}; use_count := 0 |} ];
            number := 2; map := {[ "P" := Some 0 ]} |} = None.
Proof.
  apply (dynmap_never_resurrects "P" 0
           {| object := {| this_num := 1 |}; use_count := 0 |}
           {| store := [ {| object := {| this_num := 1 |}; use_count := 0 |} ];
              number := 2; map := {[ "P" := Some 0 ]} |}).
  - reflexivity.
  - reflexivity.
Defined.

(** The run of [main]: what it prints. *)
Example dynmap_main_output :
  snd <$> main =
    Some [Creating 1; Returning "P" 1; Creating 2; Returning "Q" 2;
          Returning "P" 1; Returning "Q" 2; Creating 3; Returning "R" 3;
          Destroying 3; Destroying 2;
          Returning "P" 1; Creating 4; Returning "Q" 4;
          Creating 5; Returning "R" 5;
          Destroying 5; Destroying 4; Destroying 1].
Proof. vm_compute. reflexivity. Qed.

End dynmap_facts.
